(** * Front end of the glo interpreter: AST substrate, symbol scopes, parser

    A shallow embedding of three source files:
    - [modules/ast/src/AST/AST.ts]: the mutable tree substrate
      ([addChild], [replace]);
    - [modules/symbol/src/symbol-scope/SymbolScope.ts]: nested scopes with a
      declaration table and a value table;
    - the recursive-descent parser (class [Parser]).

    Objects that the code mutates through references (tree nodes, scopes)
    live in explicit heaps addressed by references; functions that may
    throw return an [Outcome].  The models come first, the theorems
    follow. *)

From Stdlib Require Import ZArith Lia Ascii String.
From stdpp Require Import gmap strings list.

Local Open Scope string_scope.
Local Open Scope list_scope.
Local Open Scope nat_scope.

(** ** Outcomes of JavaScript calls *)

(** A call returns, throws, or does not produce a result in the model
    ([Stuck]: a dangling reference, or the recursion budget ran out, which
    stands for unbounded recursion). *)
Inductive Outcome (E A : Type) : Type :=
| Return (a : A)
| Throw (e : E)
| Stuck.
Arguments Return {E A} a.
Arguments Throw {E A} e.
Arguments Stuck {E A}.

Global Instance Outcome_ret {E} : MRet (Outcome E) := λ A a, Return a.
Global Instance Outcome_bind {E} : MBind (Outcome E) := λ A B f m,
  match m with
  | Return a => f a
  | Throw e => Throw e
  | Stuck => Stuck
  end.

(** What a JavaScript expression of type [T | null | undefined] holds. *)
Inductive JS (A : Type) : Type :=
| JSUndefined
| JSNull
| JSObject (a : A).
Arguments JSUndefined {A}.
Arguments JSNull {A}.
Arguments JSObject {A} a.

(** ** AST.ts: the tree substrate *)

Module AST.

Definition ref := nat.

(** The two fields of the abstract class [AST]. *)
Record Node : Type := mkNode {
  _children : list ref;
  parent : option ref
}.

Inductive Exn : Type :=
| Error (message : string).

Definition set_children (o : Node) (cs : list ref) : Node :=
  {| _children := cs; parent := parent o |}.
Definition set_parent (o : Node) (p : option ref) : Node :=
  {| _children := _children o; parent := p |}.

Definition deref (h : gmap ref Node) (r : ref) : Outcome Exn Node :=
  match h !! r with
  | Some o => Return o
  | None => Stuck
  end.

(** [child.parent = this; this._children.push(child)] for one child. *)
Definition addChild1 (h : gmap ref Node) (this child : ref)
  : Outcome Exn (gmap ref Node) :=
  c ← deref h child;
  let h1 := <[child := set_parent c (Some this)]> h in
  t ← deref h1 this;
  Return (<[this := set_children t (_children t ++ [child])]> h1).

(** [addChild(...children)]: [children.forEach(...)], left to right. *)
Fixpoint addChild (h : gmap ref Node) (this : ref) (children : list ref)
  : Outcome Exn (gmap ref Node) :=
  match children with
  | [] => Return h
  | child :: rest => h1 ← addChild1 h this child; addChild h1 this rest
  end.

(** [arr.findIndex(node => node === this)]: the first position holding
    the very reference [this]; [None] stands for [-1]. *)
Fixpoint findIndex (this : ref) (arr : list ref) : option nat :=
  match arr with
  | [] => None
  | x :: rest =>
      if Nat.eqb x this then Some 0
      else option_map S (findIndex this rest)
  end.

(** [replace(node)]; returns the receiver and the heap after the call. *)
Definition replace (h : gmap ref Node) (this node : ref)
  : Outcome Exn (ref * gmap ref Node) :=
  t ← deref h this;
  match parent t with
  | None => Throw (Error "Invalid tree configuration")
  | Some p =>
      po ← deref h p;
      match findIndex this (_children po) with
      | None => Throw (Error "Invalid tree configuration")
      | Some index =>
          (* this.parent._children[index] = node *)
          let h1 := <[p := set_children po (<[index := node]> (_children po))]> h in
          (* this.parent = null *)
          t1 ← deref h1 this;
          Return (this, <[this := set_parent t1 None]> h1)
      end
  end.

(** Field reads on a heap, for stating properties. *)
Definition parentOf (h : gmap ref Node) (r : ref) : option (option ref) :=
  parent <$> h !! r.
Definition childrenOf (h : gmap ref Node) (r : ref) : option (list ref) :=
  _children <$> h !! r.

(** A parent [0] with the single child [1], and two fresh nodes [2] and
    [3] that were never attached. *)
Definition family : gmap ref Node :=
  {[ 0 := {| _children := [1]; parent := None |};
     1 := {| _children := []; parent := Some 0 |};
     2 := {| _children := []; parent := None |};
     3 := {| _children := []; parent := None |} ]}.

Definition family_after : gmap ref Node :=
  {[ 0 := {| _children := [2]; parent := None |};
     1 := {| _children := []; parent := None |};
     2 := {| _children := []; parent := None |};
     3 := {| _children := []; parent := None |} ]}.

End AST.

(** ** SymbolScope.ts: nested scopes *)

Module SymbolScope.

Definition ref := nat.

(** Modelled from the spec: the package [case-insensitive-map] is not part
    of the sources.  Its maps compare keys without regard to letter case;
    the model keys a [gmap] by the lower-cased name (ASCII letters). *)
Definition toLowerCaseAscii (c : ascii) : ascii :=
  let n := nat_of_ascii c in
  if (65 <=? n)%nat && (n <=? 90)%nat then ascii_of_nat (n + 32) else c.

Fixpoint toLowerCase (s : string) : string :=
  match s with
  | EmptyString => EmptyString
  | String c rest => String (toLowerCaseAscii c) (toLowerCase rest)
  end.

Section CaseInsensitiveMap.
Context {V : Type}.
Definition cim_get (m : gmap string V) (key : string) : option V :=
  m !! toLowerCase key.
Definition cim_has (m : gmap string V) (key : string) : bool :=
  bool_decide (is_Some (m !! toLowerCase key)).
Definition cim_set (m : gmap string V) (key : string) (v : V)
  : gmap string V :=
  <[toLowerCase key := v]> m.
End CaseInsensitiveMap.

Inductive SymbolClass : Type := VariableSymbolClass | ProcedureSymbolClass.

Section WithDataTypes.

(** The runtime values of package [data-types] are opaque here: a type
    of values, the classes a variant filter can name, the [instanceof]
    test between them, and the index mutation of array-like containers
    ([None] when the container throws). *)
Context {PSIDataType DataClass : Type}.
Context (instanceOf : PSIDataType → DataClass → bool).
Context (arrayChangeValue :
  PSIDataType → list PSIDataType → PSIDataType → option PSIDataType).

(** A declared type is a data-type class; only its static
    [defaultValue] is read here. *)
Record PSIType : Type := mkType {
  defaultValue : option PSIDataType
}.

(** Symbols, with the fields [SymbolScope] reads. *)
Inductive PSISymbol : Type :=
| VariableSymbol (name : string) (type : PSIType)
| ProcedureSymbol (name : string).

Definition symbolName (y : PSISymbol) : string :=
  match y with
  | VariableSymbol n _ => n
  | ProcedureSymbol n => n
  end.

Definition symbolInstanceOf (y : PSISymbol) (c : SymbolClass) : bool :=
  match y, c with
  | VariableSymbol _ _, VariableSymbolClass => true
  | ProcedureSymbol _, ProcedureSymbolClass => true
  | _, _ => false
  end.

Inductive Exn : Type :=
| PSIError (provider : PSISymbol) (message : string)
| TypeError          (* a property read on null or undefined *)
| ContainerError.    (* thrown by the array-like container *)

(** The fields of class [SymbolScope]. *)
Record Scope : Type := mkScope {
  scope : gmap string PSISymbol;
  value : gmap string PSIDataType;
  children : gmap string ref;
  parent : option ref;
  name : string
}.

Definition set_scope (o : Scope) (t : gmap string PSISymbol) : Scope :=
  {| scope := t; value := value o; children := children o;
     parent := parent o; name := name o |}.
Definition set_value (o : Scope) (t : gmap string PSIDataType) : Scope :=
  {| scope := scope o; value := t; children := children o;
     parent := parent o; name := name o |}.

(** [new SymbolScope(name)], with the parent the subclass supplies. *)
Definition newScope (nm : string) (p : option ref) : Scope :=
  {| scope := ∅; value := ∅; children := ∅; parent := p; name := nm |}.

Definition deref (h : gmap ref Scope) (s : ref) : Outcome Exn Scope :=
  match h !! s with
  | Some o => Return o
  | None => Stuck
  end.

(** [resolveValue(name, type?)].  The test of the source is
    [result && type ? result instanceof type : true]; the conditional
    operator binds looser than [&&], so the test reads
    [(result && type) ? (result instanceof type) : true]. *)
Fixpoint resolveValue (fuel : nat) (h : gmap ref Scope) (this : ref)
    (nm : string) (type : option DataClass)
  : Outcome Exn (JS PSIDataType) :=
  match fuel with
  | O => Stuck
  | S fuel' =>
      o ← deref h this;
      let result := cim_get (value o) nm in
      let test :=
        match result, type with
        | Some r, Some t => instanceOf r t
        | _, _ => true
        end in
      if test then
        Return (match result with
                | Some r => JSObject r
                | None => JSUndefined
                end)
      else
        match parent o with
        | Some p => resolveValue fuel' h p nm type
        | None => Return JSNull
        end
  end.

(** [resolveValueThisScopeOnly(name)]: [result || null]. *)
Definition resolveValueThisScopeOnly (h : gmap ref Scope) (this : ref)
    (nm : string) : Outcome Exn (JS PSIDataType) :=
  o ← deref h this;
  Return (match cim_get (value o) nm with
          | Some r => JSObject r
          | None => JSNull
          end).

(** [findScope(name)]: the scope itself, or [null] ([None]). *)
Fixpoint findScope (fuel : nat) (h : gmap ref Scope) (this : ref)
    (nm : string) : Outcome Exn (option ref) :=
  match fuel with
  | O => Stuck
  | S fuel' =>
      o ← deref h this;
      match cim_get (scope o) nm with
      | Some _ => Return (Some this)
      | None =>
          match parent o with
          | Some p => findScope fuel' h p nm
          | None => Return None
          end
      end
  end.

(** [changeValue(name, value)]:
    [this.findScope(name)!.value.set(name, value)]. *)
Definition changeValue (fuel : nat) (h : gmap ref Scope) (this : ref)
    (nm : string) (v : PSIDataType) : Outcome Exn (gmap ref Scope) :=
  found ← findScope fuel h this nm;
  match found with
  | None => Throw TypeError
  | Some d =>
      od ← deref h d;
      Return (<[d := set_value od (cim_set (value od) nm v)]> h)
  end.

(** [changeArrayValue(arrayName, accessors, value)].  The container is
    mutated in place; the model stores its new state back under the
    entry it was read from. *)
Definition changeArrayValue (fuel : nat) (h : gmap ref Scope) (this : ref)
    (arrayName : string) (accessors : list PSIDataType) (v : PSIDataType)
  : Outcome Exn (gmap ref Scope) :=
  found ← findScope fuel h this arrayName;
  match found with
  | None => Throw TypeError
  | Some d =>
      array ← resolveValueThisScopeOnly h d arrayName;
      match array with
      | JSObject a =>
          match arrayChangeValue a accessors v with
          | Some a' =>
              od ← deref h d;
              Return (<[d := set_value od (cim_set (value od) arrayName a')]> h)
          | None => Throw ContainerError
          end
      | _ => Throw TypeError
      end
  end.

(** [has(symbol)]. *)
Definition has (o : Scope) (y : PSISymbol) : bool :=
  cim_has (scope o) (symbolName y).

(** [insert(symbol)]. *)
Definition insert (h : gmap ref Scope) (this : ref) (y : PSISymbol)
  : Outcome Exn (gmap ref Scope) :=
  o ← deref h this;
  if has o y then
    Throw (PSIError y ("Symbol " ++ symbolName y ++ " is being redeclared"))
  else
    let o1 := set_scope o (cim_set (scope o) (symbolName y) y) in
    let o2 :=
      match y with
      | VariableSymbol _ ty =>
          match defaultValue ty with
          | Some d => set_value o1 (cim_set (value o1) (symbolName y) d)
          | None => o1
          end
      | _ => o1
      end in
    Return (<[this := o2]> h).

(** The scope object after a successful [insert(y)]. *)
Definition inserted (o : Scope) (y : PSISymbol) : Scope :=
  {| scope := cim_set (scope o) (symbolName y) y;
     value := match y with
              | VariableSymbol _ ty =>
                  match defaultValue ty with
                  | Some d => cim_set (value o) (symbolName y) d
                  | None => value o
                  end
              | ProcedureSymbol _ => value o
              end;
     children := children o; parent := parent o; name := name o |}.

(** [resolve(name, symbolType?)]; its test is
    [result && (symbolType ? result instanceof symbolType : true)]. *)
Fixpoint resolve (fuel : nat) (h : gmap ref Scope) (this : ref)
    (nm : string) (symbolType : option SymbolClass)
  : Outcome Exn (JS PSISymbol) :=
  match fuel with
  | O => Stuck
  | S fuel' =>
      o ← deref h this;
      let result := cim_get (scope o) nm in
      let test :=
        match result with
        | Some r =>
            match symbolType with
            | Some c => symbolInstanceOf r c
            | None => true
            end
        | None => false
        end in
      if test then
        Return (match result with
                | Some r => JSObject r
                | None => JSUndefined
                end)
      else
        match parent o with
        | Some p => resolve fuel' h p nm symbolType
        | None => Return JSNull
        end
  end.

(** The [k]-th scope met walking outward from [s] ([s] itself for 0). *)
Fixpoint ancestor (h : gmap ref Scope) (s : ref) (k : nat) : option ref :=
  match k with
  | O => match h !! s with Some _ => Some s | None => None end
  | S k' =>
      match h !! s with
      | Some o =>
          match parent o with
          | Some p => ancestor h p k'
          | None => None
          end
      | None => None
      end
  end.

(** Scope [s] has [nm] in its own declaration table. *)
Definition declares (h : gmap ref Scope) (s : ref) (nm : string) : bool :=
  match h !! s with
  | Some o => cim_has (scope o) nm
  | None => false
  end.

(** The walk outward from [s] ends at a scope without parent after
    [k] steps. *)
Definition rootAt (h : gmap ref Scope) (s : ref) (k : nat) : bool :=
  match ancestor h s k with
  | Some r =>
      match h !! r with
      | Some o => bool_decide (parent o = None)
      | None => false
      end
  | None => false
  end.

(** [children.add(scope)] on the scope [this] (class [ScopeChildren]):
    [this.set(scope.name, scope)]. *)
Definition set_childScopes (o : Scope) (t : gmap string ref) : Scope :=
  {| scope := scope o; value := value o; children := t;
     parent := parent o; name := name o |}.

Definition children_add (h : gmap ref Scope) (this child : ref)
  : Outcome Exn (gmap ref Scope) :=
  c ← deref h child;
  o ← deref h this;
  Return (<[this := set_childScopes o (cim_set (children o) (name c) child)]> h).

(** [children.get(scopeName)]: the child scope, or null. *)
Definition children_get (h : gmap ref Scope) (this : ref) (scopeName : string)
  : Outcome Exn (JS ref) :=
  o ← deref h this;
  Return (match cim_get (children o) scopeName with
          | Some c => JSObject c
          | None => JSNull
          end).

(** [getParent()]. *)
Definition getParent (h : gmap ref Scope) (this : ref) : Outcome Exn (JS ref) :=
  o ← deref h this;
  Return (match parent o with
          | Some p => JSObject p
          | None => JSNull
          end).

(** The symbol scope [s] itself offers for [nm] under the variant filter
    [symbolType]: the entry of its declaration table, when there is one
    and the filter accepts it. *)
Definition offers (h : gmap ref Scope) (s : ref) (nm : string)
    (symbolType : option SymbolClass) : option PSISymbol :=
  match h !! s with
  | Some o =>
      match cim_get (scope o) nm with
      | Some y =>
          match symbolType with
          | Some c => if symbolInstanceOf y c then Some y else None
          | None => Some y
          end
      | None => None
      end
  | None => None
  end.

(** Every entry of every declaration table sits under the lower-cased name
    of the symbol it holds. *)
Definition keyed (h : gmap ref Scope) : Prop :=
  ∀ s o k y, h !! s = Some o → scope o !! k = Some y →
    k = toLowerCase (symbolName y).

End WithDataTypes.

(** A small scope tree for examples: values are integers; the global
    scope [0] and a procedure scope [1] nested in it. *)
Definition intType : @PSIType Z := {| defaultValue := Some 0%Z |}.
Definition bareType : @PSIType Z := {| defaultValue := None |}.
Definition symbolX : @PSISymbol Z := VariableSymbol "x" intType.
Definition anyClass (v : Z) (c : unit) : bool := true.
Definition noArrays (a : Z) (accessors : list Z) (v : Z) : option Z := None.

Definition scopes0 : gmap ref (@Scope Z) :=
  {[ 0 := newScope "global" None; 1 := newScope "proc" (Some 0) ]}.

(** After [global.insert(x)]. *)
Definition scopes1 : gmap ref (@Scope Z) :=
  {[ 0 := {| scope := {[ "x" := symbolX ]}; value := {[ "x" := 0%Z ]};
             children := ∅; parent := None; name := "global" |};
     1 := newScope "proc" (Some 0) ]}.

(** After [proc.changeValue("X", 7)]. *)
Definition scopes2 : gmap ref (@Scope Z) :=
  {[ 0 := {| scope := {[ "x" := symbolX ]}; value := {[ "x" := 7%Z ]};
             children := ∅; parent := None; name := "global" |};
     1 := newScope "proc" (Some 0) ]}.

(** The global scope object of [scopes1]. *)
Definition globalX : @Scope Z :=
  {| scope := {[ "x" := symbolX ]}; value := {[ "x" := 0%Z ]};
     children := ∅; parent := None; name := "global" |}.

(** [scopes1] with a procedure named [x] declared in the nested scope. *)
Definition scopes3 : gmap ref (@Scope Z) :=
  {[ 0 := globalX;
     1 := {| scope := {[ "x" := ProcedureSymbol "x" ]}; value := ∅;
             children := ∅; parent := Some 0; name := "proc" |} ]}.



End SymbolScope.

(** ** The token source *)

Module Lexer.

(** The token classes the parser names; [OtherToken] stands for any
    further class of the tokenizer. *)
Inductive TokenKind : Type :=
| ProgramToken | VariableToken | ProcedureToken | BeginToken | EndToken
| SemiToken | DotToken | ColonToken | CommaToken | AssignToken | IdToken
| IntegerToken | RealToken | BooleanToken | CharToken
| IfToken | ThenToken | ElseToken | ForToken | ToToken | DownToToken
| DoToken | WhileToken | RepeatToken | UntilToken
| PlusToken | MinusToken | OrToken
| MultiplicationToken | IntegerDivisionToken | RealDivisionToken
| ModToken | AndToken
| EqualsToken | NotEqualsToken | GreaterThanToken | LessThanToken
| GreaterEqualsToken | LessEqualsToken
| IntegerConstToken | RealConstToken
| OpeningParenthesisToken | ClosingParenthesisToken
| TrueToken | FalseToken | CharConstantToken | NotToken | EofToken
| OtherToken (className : string).

Global Instance TokenKind_eq_dec : EqDecision TokenKind.
Proof. solve_decision. Defined.

(** [type.name] / [token.constructor.name]. *)
Definition kindName (k : TokenKind) : string :=
  match k with
  | ProgramToken => "ProgramToken" | VariableToken => "VariableToken"
  | ProcedureToken => "ProcedureToken" | BeginToken => "BeginToken"
  | EndToken => "EndToken" | SemiToken => "SemiToken"
  | DotToken => "DotToken" | ColonToken => "ColonToken"
  | CommaToken => "CommaToken" | AssignToken => "AssignToken"
  | IdToken => "IdToken" | IntegerToken => "IntegerToken"
  | RealToken => "RealToken" | BooleanToken => "BooleanToken"
  | CharToken => "CharToken" | IfToken => "IfToken"
  | ThenToken => "ThenToken" | ElseToken => "ElseToken"
  | ForToken => "ForToken" | ToToken => "ToToken"
  | DownToToken => "DownToToken" | DoToken => "DoToken"
  | WhileToken => "WhileToken" | RepeatToken => "RepeatToken"
  | UntilToken => "UntilToken" | PlusToken => "PlusToken"
  | MinusToken => "MinusToken" | OrToken => "OrToken"
  | MultiplicationToken => "MultiplicationToken"
  | IntegerDivisionToken => "IntegerDivisionToken"
  | RealDivisionToken => "RealDivisionToken"
  | ModToken => "ModToken" | AndToken => "AndToken"
  | EqualsToken => "EqualsToken" | NotEqualsToken => "NotEqualsToken"
  | GreaterThanToken => "GreaterThanToken"
  | LessThanToken => "LessThanToken"
  | GreaterEqualsToken => "GreaterEqualsToken"
  | LessEqualsToken => "LessEqualsToken"
  | IntegerConstToken => "IntegerConstToken"
  | RealConstToken => "RealConstToken"
  | OpeningParenthesisToken => "OpeningParenthesisToken"
  | ClosingParenthesisToken => "ClosingParenthesisToken"
  | TrueToken => "TrueToken" | FalseToken => "FalseToken"
  | CharConstantToken => "CharConstantToken" | NotToken => "NotToken"
  | EofToken => "EofToken"
  | OtherToken n => n
  end.

Record Position : Type := mkPosition {
  linePosition : Z;
  characterPosition : Z
}.

(** What a position provider carries: a start and an end. *)
Record Span : Type := mkSpan {
  spanStart : Position;
  spanEnd : Position
}.

Section WithValues.

(** The literal value of a token is passed through, never inspected. *)
Context {TokenValue : Type}.

Record Token : Type := mkToken {
  kind : TokenKind;
  value : TokenValue;
  start : Position;
  end_ : Position
}.

Definition tokenSpan (t : Token) : Span :=
  {| spanStart := start t; spanEnd := end_ t |}.

(** [t instanceof type]. *)
Definition instanceOf (t : Token) (type : TokenKind) : bool :=
  bool_decide (kind t = type).

(** Modelled from the spec: the tokenizer is not part of the sources.
    It is a sequential stream with one token of lookahead; the model
    holds the tokens still to come and the end-of-input token it
    answers with once they are used up. *)
Record Lexer : Type := mkLexer {
  pending : list Token;
  eof : Token
}.

Definition getNextToken (lx : Lexer) : Token * Lexer :=
  match pending lx with
  | t :: rest => (t, {| pending := rest; eof := eof lx |})
  | [] => (eof lx, lx)
  end.

Definition peekNextToken (lx : Lexer) : Token :=
  match pending lx with
  | t :: _ => t
  | [] => eof lx
  end.

End WithValues.
Arguments Token : clear implicits.
Arguments Lexer : clear implicits.

End Lexer.

(** ** The parser *)

Module Parser.
Import Lexer.

Section WithValues.

Context {TokenValue : Type}.
(** Template-string rendering of a token value, for error messages. *)
Context (valueToString : TokenValue → string).

Abbreviation Token := (Lexer.Token TokenValue).
Abbreviation Lexer := (Lexer.Lexer TokenValue).

(** The node classes of package [ast], as the parser constructs them.
    A node built with [inheritPositionFrom] carries the span of its
    position provider as [pos]. *)
Local Unset Elimination Schemes.
Inductive AST : Type :=
| ProgramAST (pos : Span) (name : TokenValue) (block : AST)
| BlockAST (declarations : list AST) (compoundStatement : AST)
| VariableDeclarationAST (pos : Span) (variable type : AST)
| ProcedureDeclarationAST (pos : Span) (name : TokenValue)
    (args : list AST) (block : AST)
| CompoundAST (pos : Span) (statements : list AST)
| AssignmentAST (pos : Span) (left right : AST)
| IfAST (pos : Span) (condition statement : AST) (next : option AST)
| ForAST (pos : Span) (assignment : AST) (increment : bool)
    (incrementPos : Span) (finalValue statement : AST)
| WhileAST (pos : Span) (condition statement : AST)
| RepeatAST (pos : Span) (condition : AST) (statements : list AST)
| CallAST (pos : Span) (name : TokenValue) (args : list AST)
| VariableAST (pos : Span) (name : TokenValue)
| EmptyAST (pos : Span)
| PlusAST (pos : Span) (left right : AST)
| MinusAST (pos : Span) (left right : AST)
| OrAST (pos : Span) (left right : AST)
| MultiplicationAST (pos : Span) (left right : AST)
| IntegerDivisionAST (pos : Span) (left right : AST)
| RealDivisionAST (pos : Span) (left right : AST)
| ModAST (pos : Span) (left right : AST)
| AndAST (pos : Span) (left right : AST)
| EqualsAST (pos : Span) (left right : AST)
| NotEqualsAST (pos : Span) (left right : AST)
| GreaterThanAST (pos : Span) (left right : AST)
| LessThanAST (pos : Span) (left right : AST)
| GreaterEqualsAST (pos : Span) (left right : AST)
| LessEqualsAST (pos : Span) (left right : AST)
| UnaryPlusAST (pos : Span) (target : AST)
| UnaryMinusAST (pos : Span) (target : AST)
| NotAST (pos : Span) (target : AST)
| IntegerConstantAST (pos : Span) (value : TokenValue)
| RealConstantAST (pos : Span) (value : TokenValue)
| CharConstantAST (pos : Span) (value : TokenValue)
| TrueAST (pos : Span)
| FalseAST (pos : Span)
| IntegerAST (pos : Span)
| RealAST (pos : Span)
| BooleanAST (pos : Span)
| CharAST (pos : Span).
Local Set Elimination Schemes.

(** What [variable()] returns: a [VariableAST] object, whose [name] and
    position its callers read. *)
Record VariableNode : Type := mkVariable {
  variablePos : Span;
  variableName : TokenValue
}.

Definition ofVariable (v : VariableNode) : AST :=
  VariableAST (variablePos v) (variableName v).

(** [PSIError(provider, message)] with the span of its provider; a
    [TypeError] is what reading [previousToken!.end] raises when no
    token has been consumed yet. *)
Inductive Exn : Type :=
| PSIError (location : Span) (message : string)
| TypeError.

(** The fields of class [Parser]. *)
Record State : Type := mkState {
  currentToken : Token;
  previousToken : option Token;
  lexer : Lexer
}.

(** [new Parser(lexer)]. *)
Definition newParser (lx : Lexer) : State :=
  let (t, lx') := getNextToken lx in
  {| currentToken := t; previousToken := None; lexer := lx' |}.

(** Methods run on the parser state and may throw. *)
Definition M (A : Type) : Type := State → Outcome Exn (A * State).

Global Instance M_ret : MRet M := λ A a st, Return (a, st).
Global Instance M_bind : MBind M := λ A B f m st,
  match m st with
  | Return (a, st') => f a st'
  | Throw e => Throw e
  | Stuck => Stuck
  end.

Definition throw {A} (e : Exn) : M A := λ _, Throw e.
Definition stuck {A} : M A := λ _, Stuck.
Definition get_currentToken : M Token := λ st, Return (currentToken st, st).
Definition get_previousToken : M (option Token) := λ st,
  Return (previousToken st, st).
Definition set_currentToken (t : Token) : M unit := λ st,
  Return (tt, {| currentToken := t; previousToken := previousToken st;
                 lexer := lexer st |}).

(** [get previousTokenEndLocationProvider()]. *)
Definition previousTokenEndLocationProvider : M Span := λ st,
  match previousToken st with
  | None => Throw TypeError
  | Some p =>
      let at_ := {| linePosition := linePosition (end_ p);
                    characterPosition := (characterPosition (end_ p) - 1)%Z |} in
      Return ({| spanStart := at_; spanEnd := at_ |}, st)
  end.

(** Where a missing separator is reported: the end of the previous token,
    one column back, as start and as end. *)
Definition afterPrevious (p : Token) : Span :=
  let at_ := {| linePosition := linePosition (end_ p);
                characterPosition := (characterPosition (end_ p) - 1)%Z |} in
  {| spanStart := at_; spanEnd := at_ |}.

(** [eat(type, message?, previousTokenThrow = false)]: returns the next
    token of the lexer; the caller assigns it to [currentToken]. *)
Definition eat (type : TokenKind) (message : option string)
    (previousTokenThrow : bool) : M Token := λ st,
  if instanceOf (currentToken st) type then
    let (t, lx) := getNextToken (lexer st) in
    Return (t, {| currentToken := currentToken st;
                  previousToken := Some (currentToken st);
                  lexer := lx |})
  else
    (provider ← (if previousTokenThrow
                 then previousTokenEndLocationProvider
                 else mret (tokenSpan (currentToken st)));
     throw (PSIError provider
       (match message with
        | Some (String c m) => String c m
        | _ => "Expected type " ++ kindName (kind (currentToken st))
                 ++ " to be " ++ kindName type
        end))) st.

(** [this.currentToken = this.eat(type, message, previousTokenThrow)]. *)
Definition advance (type : TokenKind) (message : option string)
    (previousTokenThrow : bool) : M unit :=
  t ← eat type message previousTokenThrow; set_currentToken t.

(** [peek()]. *)
Definition peek : M Token := λ st, Return (peekNextToken (lexer st), st).

(** [variable()]. *)
Definition variable : M VariableNode :=
  cur ← get_currentToken;
  let node := {| variablePos := tokenSpan cur; variableName := value cur |} in
  advance IdToken None false;;
  mret node.

(** [empty()]. *)
Definition empty : M AST :=
  cur ← get_currentToken;
  mret (EmptyAST (tokenSpan cur)).

(** [type()]. *)
Definition type : M AST :=
  savedToken ← get_currentToken;
  if instanceOf savedToken IntegerToken then
    advance IntegerToken None false;; mret (IntegerAST (tokenSpan savedToken))
  else if instanceOf savedToken RealToken then
    advance RealToken None false;; mret (RealAST (tokenSpan savedToken))
  else if instanceOf savedToken BooleanToken then
    advance BooleanToken None false;; mret (BooleanAST (tokenSpan savedToken))
  else if instanceOf savedToken CharToken then
    advance CharToken None false;; mret (CharAST (tokenSpan savedToken))
  else
    throw (PSIError (tokenSpan savedToken)
             ("Unknown data type " ++ valueToString (value savedToken))).

(** [variableDeclaration()]; [variableDeclaration_ids] is its loop
    over the comma-separated names. *)
Fixpoint variableDeclaration_ids (fuel : nat) (ids : list VariableNode)
  : M (list VariableNode) :=
  match fuel with
  | O => stuck
  | S fuel' =>
      cur ← get_currentToken;
      if instanceOf cur CommaToken then
        advance CommaToken None false;;
        id ← variable;
        variableDeclaration_ids fuel' (ids ++ [id])
      else mret ids
  end.

Definition variableDeclaration (fuel : nat) : M (list AST) :=
  first ← variable;
  ids ← variableDeclaration_ids fuel [first];
  advance ColonToken
    (Some "Expected colon after variable name declaration") true;;
  ty ← type;
  mret (map (λ id, VariableDeclarationAST (variablePos id) (ofVariable id) ty)
            ids).

(** [procedureParameters()]. *)
Fixpoint procedureParameters_more (fuel : nat) (args : list AST)
  : M (list AST) :=
  match fuel with
  | O => stuck
  | S fuel' =>
      cur ← get_currentToken;
      if instanceOf cur SemiToken then
        advance SemiToken None false;;
        ds ← variableDeclaration fuel';
        procedureParameters_more fuel' (args ++ ds)
      else mret args
  end.

Definition procedureParameters (fuel : nat) : M (list AST) :=
  cur ← get_currentToken;
  if negb (instanceOf cur IdToken) then mret []
  else
    args ← variableDeclaration fuel;
    procedureParameters_more fuel args.

(** The [do ... while] loop of a variable section in
    [declarations()]. *)
Fixpoint declarations_variables (fuel : nat) (declarations : list AST)
  : M (list AST) :=
  match fuel with
  | O => stuck
  | S fuel' =>
      ds ← variableDeclaration fuel';
      advance SemiToken
        (Some "Expected semi color at the end of a variable declaration")
        true;;
      cur ← get_currentToken;
      if instanceOf cur IdToken
      then declarations_variables fuel' (declarations ++ ds)
      else mret (declarations ++ ds)
  end.

(** An [If] object while its chain is being linked: the chain is built
    by mutation ([currentIf.addNext(...)]) of objects that the first
    [If] reaches through references, so the objects of one chain are
    kept in a store addressed by position. *)
Inductive IfNext : Type :=
| NextRef (r : nat)       (* another [If] object of the chain *)
| NextNode (node : AST).  (* a finished statement *)

Record IfObject : Type := mkIf {
  ifPos : Span;
  ifCondition : AST;
  ifBranch : AST;
  ifNext : option IfNext
}.

(** Modelled from the spec: class [IfAST] is not part of the sources;
    [addNext] links the alternative as the "next" of the receiver. *)
Definition addNext (objs : list IfObject) (this : nat) (n : IfNext)
  : list IfObject :=
  alter (λ o, {| ifPos := ifPos o; ifCondition := ifCondition o;
                 ifBranch := ifBranch o; ifNext := Some n |})
        this objs.

(** The tree an [If] reference denotes once the chain is complete. *)
Fixpoint readIf (fuel : nat) (objs : list IfObject) (r : nat)
  : option AST :=
  match fuel with
  | O => None
  | S fuel' =>
      o ← objs !! r;
      match ifNext o with
      | None => Some (IfAST (ifPos o) (ifCondition o) (ifBranch o) None)
      | Some (NextNode n) =>
          Some (IfAST (ifPos o) (ifCondition o) (ifBranch o) (Some n))
      | Some (NextRef r') =>
          n ← readIf fuel' objs r';
          Some (IfAST (ifPos o) (ifCondition o) (ifBranch o) (Some n))
      end
  end.

Definition returnIf (objs : list IfObject) (r : nat) : M AST :=
  match readIf (length objs) objs r with
  | Some node => mret node
  | None => stuck
  end.

(** A binary rule after its left operand: consume the operator and
    parse the right operand with [rec]. *)
Definition rightOperand (op : TokenKind) (rec : M AST)
    (mk : AST → AST) : M AST :=
  advance op None false;;
  right ← rec;
  mret (mk right).

(** The mutually recursive productions.  [fuel] bounds the depth of
    nested calls and the number of loop iterations. *)
Fixpoint expression (fuel : nat) : M AST :=
  match fuel with
  | O => stuck
  | S fuel' =>
      node ← term fuel';
      savedToken ← get_currentToken;
      let pos := tokenSpan savedToken in
      if instanceOf savedToken PlusToken then
        rightOperand PlusToken (expression fuel') (PlusAST pos node)
      else if instanceOf savedToken MinusToken then
        rightOperand MinusToken (expression fuel') (MinusAST pos node)
      else if instanceOf savedToken OrToken then
        rightOperand OrToken (expression fuel') (OrAST pos node)
      else mret node
  end

with term (fuel : nat) : M AST :=
  match fuel with
  | O => stuck
  | S fuel' =>
      node ← comparison fuel';
      savedToken ← get_currentToken;
      let pos := tokenSpan savedToken in
      if instanceOf savedToken MultiplicationToken then
        rightOperand MultiplicationToken (term fuel')
          (MultiplicationAST pos node)
      else if instanceOf savedToken IntegerDivisionToken then
        rightOperand IntegerDivisionToken (term fuel')
          (IntegerDivisionAST pos node)
      else if instanceOf savedToken RealDivisionToken then
        rightOperand RealDivisionToken (term fuel')
          (RealDivisionAST pos node)
      else if instanceOf savedToken ModToken then
        rightOperand ModToken (term fuel') (ModAST pos node)
      else if instanceOf savedToken AndToken then
        rightOperand AndToken (term fuel') (AndAST pos node)
      else mret node
  end

with comparison (fuel : nat) : M AST :=
  match fuel with
  | O => stuck
  | S fuel' =>
      node ← factor fuel';
      savedToken ← get_currentToken;
      let pos := tokenSpan savedToken in
      if instanceOf savedToken EqualsToken then
        rightOperand EqualsToken (comparison fuel') (EqualsAST pos node)
      else if instanceOf savedToken NotEqualsToken then
        rightOperand NotEqualsToken (comparison fuel')
          (NotEqualsAST pos node)
      else if instanceOf savedToken GreaterThanToken then
        rightOperand GreaterThanToken (comparison fuel')
          (GreaterThanAST pos node)
      else if instanceOf savedToken LessThanToken then
        rightOperand LessThanToken (comparison fuel')
          (LessThanAST pos node)
      else if instanceOf savedToken GreaterEqualsToken then
        rightOperand GreaterEqualsToken (comparison fuel')
          (GreaterEqualsAST pos node)
      else if instanceOf savedToken LessEqualsToken then
        rightOperand LessEqualsToken (comparison fuel')
          (LessEqualsAST pos node)
      else mret node
  end

with factor (fuel : nat) : M AST :=
  match fuel with
  | O => stuck
  | S fuel' =>
      savedToken ← get_currentToken;
      let pos := tokenSpan savedToken in
      if instanceOf savedToken PlusToken then
        advance PlusToken None false;;
        target ← factor fuel';
        mret (UnaryPlusAST pos target)
      else if instanceOf savedToken MinusToken then
        advance MinusToken None false;;
        target ← factor fuel';
        mret (UnaryMinusAST pos target)
      else if instanceOf savedToken IntegerConstToken then
        advance IntegerConstToken None false;;
        mret (IntegerConstantAST pos (value savedToken))
      else if instanceOf savedToken RealConstToken then
        advance RealConstToken None false;;
        mret (RealConstantAST pos (value savedToken))
      else if instanceOf savedToken OpeningParenthesisToken then
        advance OpeningParenthesisToken None false;;
        result ← expression fuel';
        advance ClosingParenthesisToken None false;;
        mret result
      else if instanceOf savedToken TrueToken then
        advance TrueToken None false;;
        mret (TrueAST pos)
      else if instanceOf savedToken FalseToken then
        advance FalseToken None false;;
        mret (FalseAST pos)
      else if instanceOf savedToken CharConstantToken then
        advance CharConstantToken None false;;
        mret (CharConstantAST pos (value savedToken))
      else if instanceOf savedToken NotToken then
        advance NotToken None false;;
        target ← factor fuel';
        mret (NotAST pos target)
      else
        v ← variable;
        mret (ofVariable v)
  end.

(** [assignmentExpression()]. *)
Definition assignmentExpression (fuel : nat) : M AST :=
  left ← variable;
  assignmentToken ← get_currentToken;
  advance AssignToken (Some "Invalid statement") true;;
  right ← expression fuel;
  mret (AssignmentAST (tokenSpan assignmentToken) (ofVariable left) right).

(** [call()]; [call_args] is its [while] loop. *)
Fixpoint call_args (fuel : nat) (args : list AST) : M (list AST) :=
  match fuel with
  | O => stuck
  | S fuel' =>
      cur ← get_currentToken;
      if instanceOf cur CommaToken then
        advance CommaToken None false;;
        arg ← expression fuel';
        call_args fuel' (args ++ [arg])
      else mret args
  end.

Definition call (fuel : nat) : M AST :=
  nameAST ← variable;
  advance OpeningParenthesisToken None false;;
  cur ← get_currentToken;
  args ← (if negb (instanceOf cur ClosingParenthesisToken) then
            first ← expression fuel;
            call_args fuel [first]
          else mret []);
  advance ClosingParenthesisToken
    (Some "Expected closing parenthesis after procedure/function call")
    true;;
  mret (CallAST (variablePos nameAST) (variableName nameAST) args).

(** The statement productions ([if_] and [for_] stand for the methods
    [if] and [for], whose names are reserved words here). *)
Fixpoint statement (fuel : nat) : M AST :=
  match fuel with
  | O => stuck
  | S fuel' =>
      cur ← get_currentToken;
      if instanceOf cur BeginToken then compoundStatement fuel'
      else
        isCall ← (if instanceOf cur IdToken then
                    next ← peek;
                    mret (instanceOf next OpeningParenthesisToken)
                  else mret false);
        if isCall : bool then call fuel'
        else if instanceOf cur IdToken then assignmentExpression fuel'
        else if instanceOf cur IfToken then ifStatement fuel'
        else if instanceOf cur ForToken then for_ fuel'
        else if instanceOf cur WhileToken then while fuel'
        else if instanceOf cur RepeatToken then repeat fuel'
        else empty
  end

with statementList (fuel : nat) : M (list AST) :=
  match fuel with
  | O => stuck
  | S fuel' =>
      statements ← (first ← statement fuel';
                    statementList_loop fuel' [first]);
      cur ← get_currentToken;
      prev ← get_previousToken;
      if negb (bool_decide (kind cur ∈ [EndToken; UntilToken]))
         && negb (match prev with
                  | Some p => instanceOf p SemiToken
                  | None => false
                  end)
      then
        provider ← previousTokenEndLocationProvider;
        throw (PSIError provider
                 "Expected statement to end with a semi colon")
      else mret statements
  end

(* the [while] loop of [statementList] *)
with statementList_loop (fuel : nat) (statements : list AST)
  : M (list AST) :=
  match fuel with
  | O => stuck
  | S fuel' =>
      cur ← get_currentToken;
      if instanceOf cur SemiToken then
        advance SemiToken None false;;
        s ← statement fuel';
        statementList_loop fuel' (statements ++ [s])
      else mret statements
  end

with compoundStatement (fuel : nat) : M AST :=
  match fuel with
  | O => stuck
  | S fuel' =>
      beginToken ← get_currentToken;
      advance BeginToken None false;;
      statements ← statementList fuel';
      advance EndToken
        (Some "Expected compound statement to end with end") false;;
      mret (CompoundAST (tokenSpan beginToken) statements)
  end

with if_ (fuel : nat) : M IfObject :=
  match fuel with
  | O => stuck
  | S fuel' =>
      ifToken ← get_currentToken;
      advance IfToken None false;;
      expr ← expression fuel';
      advance ThenToken (Some "Expected then after if condition") true;;
      stmt ← statement fuel';
      mret {| ifPos := tokenSpan ifToken; ifCondition := expr;
              ifBranch := stmt; ifNext := None |}
  end

with ifStatement (fuel : nat) : M AST :=
  match fuel with
  | O => stuck
  | S fuel' =>
      firstIf ← if_ fuel';
      (* [firstIf] is object 0 of the chain, and the first [currentIf] *)
      objs ← ifStatement_loop fuel' [firstIf] 0;
      returnIf objs 0
  end

(* the [while] loop of [ifStatement] *)
with ifStatement_loop (fuel : nat) (objs : list IfObject)
    (currentIf : nat) : M (list IfObject) :=
  match fuel with
  | O => stuck
  | S fuel' =>
      cur ← get_currentToken;
      if instanceOf cur ElseToken then
        advance ElseToken None false;;
        cur' ← get_currentToken;
        if instanceOf cur' IfToken then
          newIf ← if_ fuel';
          let r := length objs in
          ifStatement_loop fuel' (addNext (objs ++ [newIf]) currentIf (NextRef r)) r
        else
          s ← statement fuel';
          ifStatement_loop fuel' (addNext objs currentIf (NextNode s)) currentIf
      else mret objs
  end

with for_ (fuel : nat) : M AST :=
  match fuel with
  | O => stuck
  | S fuel' =>
      forToken ← get_currentToken;
      advance ForToken None false;;
      assignment ← assignmentExpression fuel';
      cur ← get_currentToken;
      increment ←
        (if instanceOf cur ToToken then
           advance ToToken None false;; mret true
         else if instanceOf cur DownToToken then
           advance DownToToken None false;; mret false
         else
           provider ← previousTokenEndLocationProvider;
           throw (PSIError provider "Expected to/down to after for"));
      finalValue ← expression fuel';
      advance DoToken (Some "Expected do after for header") true;;
      stmt ← statement fuel';
      mret (ForAST (tokenSpan forToken) assignment increment
              (tokenSpan cur) finalValue stmt)
  end

with while (fuel : nat) : M AST :=
  match fuel with
  | O => stuck
  | S fuel' =>
      whileToken ← get_currentToken;
      advance WhileToken None false;;
      condition ← expression fuel';
      advance DoToken (Some "Expected do after while condition") true;;
      stmt ← statement fuel';
      mret (WhileAST (tokenSpan whileToken) condition stmt)
  end

with repeat (fuel : nat) : M AST :=
  match fuel with
  | O => stuck
  | S fuel' =>
      repeatToken ← get_currentToken;
      advance RepeatToken None false;;
      statements ← statementList fuel';
      advance UntilToken
        (Some "Expected until at the end of a repeat loop") true;;
      condition ← expression fuel';
      mret (RepeatAST (tokenSpan repeatToken) condition statements)
  end.

(** [block()], [declarations()] and [procedureDeclaration()]. *)
Fixpoint block (fuel : nat) : M AST :=
  match fuel with
  | O => stuck
  | S fuel' =>
      decls ← declarations fuel' [];
      compound ← compoundStatement fuel';
      mret (BlockAST decls compound)
  end

with declarations (fuel : nat) (decls : list AST) : M (list AST) :=
  match fuel with
  | O => stuck
  | S fuel' =>
      cur ← get_currentToken;
      if instanceOf cur VariableToken then
        advance VariableToken None false;;
        decls' ← declarations_variables fuel' decls;
        declarations fuel' decls'
      else if instanceOf cur ProcedureToken then
        d ← procedureDeclaration fuel';
        declarations fuel' (decls ++ [d])
      else mret decls
  end

with procedureDeclaration (fuel : nat) : M AST :=
  match fuel with
  | O => stuck
  | S fuel' =>
      procedureToken ← get_currentToken;
      advance ProcedureToken None false;;
      nameAST ← variable;
      cur ← get_currentToken;
      args ← (if instanceOf cur OpeningParenthesisToken then
                advance OpeningParenthesisToken
                  (Some "Expected opening parenthesis after procedure name")
                  false;;
                args ← procedureParameters fuel';
                advance ClosingParenthesisToken
                  (Some "Expected closing parenthesis after procedure arguments")
                  true;;
                mret args
              else mret []);
      advance SemiToken
        (Some "Expected semi colon after procedure type declaration") true;;
      body ← block fuel';
      advance SemiToken
        (Some "Expected semi colon after procedure declaration") true;;
      mret (ProcedureDeclarationAST (tokenSpan procedureToken)
              (variableName nameAST) args body)
  end.

(** [program()]. *)
Definition program (fuel : nat) : M AST :=
  programToken ← get_currentToken;
  advance ProgramToken
    (Some "Expected program to begin with a program statement") false;;
  nameAST ← variable;
  advance SemiToken (Some "Expected semi colon after program name") true;;
  blockNode ← block fuel;
  advance DotToken (Some "Expected dot at the end of a program") true;;
  mret (ProgramAST (tokenSpan programToken) (variableName nameAST) blockNode).

(** [run()]. *)
Definition run (fuel : nat) : M AST :=
  node ← program fuel;
  advance EofToken None false;;
  mret node.

(** The alternatives of an if chain in the order the "next" links
    give them, starting with the node itself. *)
Fixpoint alternatives (node : AST) : list AST :=
  match node with
  | IfAST pos c s (Some n) => IfAST pos c s None :: alternatives n
  | _ => [node]
  end.

(** The parser one token further: the state that
    [this.currentToken = this.eat(...)] leaves when the token matches. *)
Definition next (st : State) : State :=
  let (t, lx) := getNextToken (lexer st) in
  {| currentToken := t; previousToken := Some (currentToken st); lexer := lx |}.

Fixpoint advanceBy (n : nat) (st : State) : State :=
  match n with
  | O => st
  | S n' => advanceBy n' (next st)
  end.

(** Whenever [m] returns, it has moved the parser forward by at least [lo]
    tokens and done nothing else to it. *)
Definition Advances {A} (lo : nat) (m : M A) : Prop :=
  ∀ st a st', m st = Return (a, st') → ∃ n, lo ≤ n ∧ st' = advanceBy n st.

(** The binary operators, the rule that consumes each ([expression],
    [term] or [comparison]), its token class and its node class, as the
    three rules list them. *)
Inductive BinaryOperator : Type :=
| Plus | Minus | Or
| Multiplication | IntegerDivision | RealDivision | Mod | And
| Equals | NotEquals | GreaterThan | LessThan | GreaterEquals | LessEquals.

Inductive Tier : Type := ExprTier | TermTier | ComparisonTier.

Definition tier (op : BinaryOperator) : Tier :=
  match op with
  | Plus | Minus | Or => ExprTier
  | Multiplication | IntegerDivision | RealDivision | Mod | And => TermTier
  | _ => ComparisonTier
  end.

(** How deep the rule of a tier sits below [expression]. *)
Definition tierDepth (t : Tier) : nat :=
  match t with
  | ExprTier => 0
  | TermTier => 1
  | ComparisonTier => 2
  end.

Definition operatorToken (op : BinaryOperator) : TokenKind :=
  match op with
  | Plus => PlusToken | Minus => MinusToken | Or => OrToken
  | Multiplication => MultiplicationToken
  | IntegerDivision => IntegerDivisionToken
  | RealDivision => RealDivisionToken
  | Mod => ModToken | And => AndToken
  | Equals => EqualsToken | NotEquals => NotEqualsToken
  | GreaterThan => GreaterThanToken | LessThan => LessThanToken
  | GreaterEquals => GreaterEqualsToken | LessEquals => LessEqualsToken
  end.

Definition operatorNode (op : BinaryOperator) : Span → AST → AST → AST :=
  match op with
  | Plus => PlusAST | Minus => MinusAST | Or => OrAST
  | Multiplication => MultiplicationAST
  | IntegerDivision => IntegerDivisionAST
  | RealDivision => RealDivisionAST
  | Mod => ModAST | And => AndAST
  | Equals => EqualsAST | NotEquals => NotEqualsAST
  | GreaterThan => GreaterThanAST | LessThan => LessThanAST
  | GreaterEquals => GreaterEqualsAST | LessEquals => LessEqualsAST
  end.

(** The unary operators of [factor], with token class and node class. *)
Inductive UnaryOperator : Type := UnaryPlus | UnaryMinus | Not.

Definition unaryToken (op : UnaryOperator) : TokenKind :=
  match op with
  | UnaryPlus => PlusToken
  | UnaryMinus => MinusToken
  | Not => NotToken
  end.

Definition unaryNode (op : UnaryOperator) : Span → AST → AST :=
  match op with
  | UnaryPlus => UnaryPlusAST
  | UnaryMinus => UnaryMinusAST
  | Not => NotAST
  end.

(** The token classes with which [factor] starts something other than a
    variable, and the four type keywords of [type]. *)
Definition factorStarts : list TokenKind :=
  [PlusToken; MinusToken; IntegerConstToken; RealConstToken;
   OpeningParenthesisToken; TrueToken; FalseToken; CharConstantToken;
   NotToken].

Definition typeKeywords : list (TokenKind * (Span → AST)) :=
  [(IntegerToken, IntegerAST); (RealToken, RealAST);
   (BooleanToken, BooleanAST); (CharToken, CharAST)].

(** A token stream given by the classes of its tokens: token [i] has value
    [val i] and spans [from i] to [to i]; the end-of-input token comes
    after the last one. *)
Section Streams.
Context (val : nat → TokenValue) (from to : nat → Position).

Definition tokenAt (i : nat) (k : TokenKind) : Token :=
  {| kind := k; value := val i; start := from i; end_ := to i |}.

Definition spanAt (i : nat) : Span :=
  {| spanStart := from i; spanEnd := to i |}.

Definition stream (kinds : list TokenKind) : Lexer :=
  {| pending := imap tokenAt kinds;
     eof := tokenAt (length kinds) EofToken |}.

(** The parser has consumed the whole stream: the current token is the
    end-of-input token and nothing is pending. *)
Definition atEnd (kinds : list TokenKind) (st : State) : Prop :=
  currentToken st = tokenAt (length kinds) EofToken
  ∧ pending (lexer st) = [].

End Streams.

End WithValues.

(** Sample streams: token [i] sits on line 1 at columns [2i] to [2i+1];
    its value is the integer [i / 2 + 1], so that the literals of
    [a op b op c] are 1, 2 and 3. *)
Definition sampleVal (i : nat) : Z := Z.of_nat (i / 2 + 1).
Definition sampleFrom (i : nat) : Position :=
  {| linePosition := 1; characterPosition := Z.of_nat (2 * i) |}.
Definition sampleTo (i : nat) : Position :=
  {| linePosition := 1; characterPosition := Z.of_nat (2 * i + 1) |}.

Definition sampleShow (v : Z) : string := "?".

End Parser.

(** * Properties *)

(** ** AST.ts *)

Section ASTFacts.
Import AST.

Lemma findIndex_Some this arr i :
  findIndex this arr = Some i →
  arr !! i = Some this ∧ ∀ j, j < i → arr !! j ≠ Some this.
Proof.
  revert i. induction arr as [|x rest IH]; intros i; simpl; [done|].
  destruct (Nat.eqb_spec x this) as [->|Hne].
  - intros [= <-]. split; [done|]. intros j Hj. lia.
  - destruct (findIndex this rest) as [i'|] eqn:Hi; simpl; [|done].
    intros [= <-]. destruct (IH i' eq_refl) as [Hat Hbefore].
    split; [done|]. intros [|j] Hj; simpl.
    + congruence.
    + apply Hbefore. lia.
Qed.

(** What [replace] does to the heap when its two guards pass: one slot of
    the parent's child sequence is overwritten, the receiver loses its
    parent, and no other field of any node is written; in particular the
    parent link of the new node is not assigned. *)
Lemma replace_effect (h : gmap ref Node) (r n p : ref) (t po : Node) (i : nat) :
  h !! r = Some t → parent t = Some p → h !! p = Some po →
  findIndex r (_children po) = Some i →
  ∃ h', replace h r n = Return (r, h')
    ∧ childrenOf h' p = Some (<[i := n]> (_children po))
    ∧ parentOf h' r = Some None
    ∧ (∀ x, x ≠ r → parentOf h' x = parentOf h x)
    ∧ (∀ x, x ≠ p → childrenOf h' x = childrenOf h x).
Proof.
  intros Hr Hp Hpo Hi. unfold replace, deref, parentOf, childrenOf.
  rewrite Hr. simpl. rewrite Hp, Hpo. simpl. rewrite Hi.
  destruct (decide (p = r)) as [->|Hne].
  - rewrite lookup_insert_eq. simpl. eexists. split; [reflexivity|].
    repeat split.
    + by rewrite lookup_insert_eq.
    + by rewrite lookup_insert_eq.
    + intros x Hx. by rewrite !lookup_insert_ne.
    + intros x Hx. by rewrite !lookup_insert_ne.
  - rewrite lookup_insert_ne, Hr by done. simpl.
    eexists. split; [reflexivity|]. repeat split.
    + rewrite lookup_insert_ne by done. by rewrite lookup_insert_eq.
    + by rewrite lookup_insert_eq.
    + intros x Hx. rewrite lookup_insert_ne by done.
      destruct (decide (x = p)) as [->|Hxp].
      * rewrite lookup_insert_eq, Hpo. done.
      * by rewrite lookup_insert_ne.
    + intros x Hx. destruct (decide (x = r)) as [->|Hxr].
      * rewrite lookup_insert_eq, Hr. done.
      * by rewrite !lookup_insert_ne.
Qed.

(** [family] is what [addChild] builds from four fresh nodes. *)
Lemma family_built :
  addChild {[ 0 := mkNode [] None; 1 := mkNode [] None;
              2 := mkNode [] None; 3 := mkNode [] None ]} 0 [1]
  = Return family.
Proof. vm_compute. reflexivity. Qed.

(** C2 (the code departs from the claim). In [family], node [1] replaced
    by the fresh node [2]: the slot of [1] in the children of [0] now
    holds [2] and [1] is detached, but the parent link of [2] is still
    null, not the former parent [0]; a later [replace] on [2], which now
    sits in the tree, is refused by the guard of [replace] itself. *)
Theorem replace_new_node_parent_not_set :
  replace family 1 2 = Return (1, family_after)
  ∧ childrenOf family_after 0 = Some [2]
  ∧ parentOf family_after 1 = Some None
  ∧ parentOf family_after 2 = Some None
  ∧ parentOf family_after 2 ≠ Some (Some 0)
  ∧ replace family_after 2 3 = Throw (Error "Invalid tree configuration").
Proof.
  repeat split; try (vm_compute; reflexivity).
  vm_compute. discriminate.
Qed.

End ASTFacts.

(** ** SymbolScope.ts *)

Section ScopeFacts.
Import SymbolScope.

Context {PSIDataType DataClass : Type}.
Context (instanceOf : PSIDataType → DataClass → bool).
Context (arrayChangeValue :
  PSIDataType → list PSIDataType → PSIDataType → option PSIDataType).

Abbreviation Heap := (gmap ref (@Scope PSIDataType)).

Lemma cim_has_get {V} (m : gmap string V) key :
  cim_has m key = true ↔ is_Some (cim_get m key).
Proof. unfold cim_has, cim_get. apply bool_decide_eq_true. Qed.

Lemma cim_has_false {V} (m : gmap string V) key :
  cim_has m key = false ↔ cim_get m key = None.
Proof.
  unfold cim_has, cim_get. rewrite bool_decide_eq_false.
  rewrite <- eq_None_not_Some. done.
Qed.

Lemma cim_get_set {V} (m : gmap string V) key key' v :
  toLowerCase key = toLowerCase key' →
  cim_get (cim_set m key v) key' = Some v.
Proof. unfold cim_get, cim_set. intros ->. apply lookup_insert_eq. Qed.

Lemma ancestor_0 (h : Heap) s a :
  ancestor h s 0 = Some a → a = s ∧ is_Some (h !! s).
Proof. simpl. destruct (h !! s) eqn:E; [|done]. intros [= <-]. eauto. Qed.

Lemma ancestor_S (h : Heap) s k a :
  ancestor h s (S k) = Some a →
  ∃ o p, h !! s = Some o ∧ parent o = Some p ∧ ancestor h p k = Some a.
Proof.
  simpl. destruct (h !! s) as [o|] eqn:E; [|done].
  destruct (parent o) as [p|] eqn:Ep; [|done]. eauto.
Qed.

Lemma declares_true (h : Heap) s nm :
  declares h s nm = true →
  ∃ o y, h !! s = Some o ∧ cim_get (scope o) nm = Some y.
Proof.
  unfold declares. destruct (h !! s) as [o|]; [|done].
  intros [y Hy]%cim_has_get. eauto.
Qed.

Lemma declares_false (h : Heap) s o nm :
  h !! s = Some o → declares h s nm = false → cim_get (scope o) nm = None.
Proof. unfold declares. intros ->. apply cim_has_false. Qed.

(** The walk of [findScope] stops at the nearest scope, walking outward,
    whose declaration table has the name. *)
Lemma findScope_nearest (h : Heap) nm k : ∀ s a,
  ancestor h s k = Some a → declares h a nm = true →
  ∃ j d, j ≤ k ∧ ancestor h s j = Some d ∧ declares h d nm = true
    ∧ (∀ i, i < j → ∃ b, ancestor h s i = Some b ∧ declares h b nm = false)
    ∧ ∀ fuel, j < fuel → findScope fuel h s nm = Return (Some d).
Proof.
  induction k as [|k IH]; intros s a Ha Hdecl.
  - apply ancestor_0 in Ha as [-> [o Ho]].
    exists 0, s. split; [lia|]. split; [by simpl; rewrite Ho|].
    split; [done|]. split; [intros i Hi; lia|].
    intros [|fuel] Hf; [lia|]. simpl. unfold deref. rewrite Ho. simpl.
    destruct (declares_true _ _ _ Hdecl) as (o' & y & Ho' & Hy).
    rewrite Ho in Ho'. injection Ho' as <-. by rewrite Hy.
  - destruct (ancestor_S _ _ _ _ Ha) as (o & p & Ho & Hp & Hanc).
    destruct (declares h s nm) eqn:Hs.
    + exists 0, s. split; [lia|]. split; [by simpl; rewrite Ho|].
      split; [done|]. split; [intros i Hi; lia|].
      intros [|fuel] Hf; [lia|]. simpl. unfold deref. rewrite Ho. simpl.
      destruct (declares_true _ _ _ Hs) as (o' & y & Ho' & Hy).
      rewrite Ho in Ho'. injection Ho' as <-. by rewrite Hy.
    + destruct (IH p a Hanc Hdecl) as (j & d & Hj & Hd & Hdd & Hbefore & Hrun).
      exists (S j), d. split; [lia|].
      split; [by simpl; rewrite Ho, Hp|]. split; [done|]. split.
      * intros [|i] Hi.
        -- exists s. split; [by simpl; rewrite Ho|done].
        -- destruct (Hbefore i ltac:(lia)) as (b & Hb & Hbd).
           exists b. split; [by simpl; rewrite Ho, Hp|done].
      * intros [|fuel] Hf; [lia|]. simpl. unfold deref. rewrite Ho. simpl.
        rewrite (declares_false _ _ _ _ Ho Hs), Hp. apply Hrun. lia.
Qed.

(** When the walk reaches a scope without parent and no scope on the way
    declares the name, [findScope] answers null. *)
Lemma findScope_null (h : Heap) nm k : ∀ s,
  rootAt h s k = true →
  (∀ i, i ≤ k → ∃ b, ancestor h s i = Some b ∧ declares h b nm = false) →
  ∀ fuel, k < fuel → findScope fuel h s nm = Return None.
Proof.
  induction k as [|k IH]; intros s Hroot Hnone [|fuel] Hf; try lia.
  - unfold rootAt in Hroot.
    destruct (ancestor h s 0) as [r|] eqn:Hr; [|done].
    apply ancestor_0 in Hr as [-> [o Ho]]. rewrite Ho in Hroot.
    apply bool_decide_eq_true in Hroot.
    destruct (Hnone 0 ltac:(lia)) as (b & Hb & Hbd).
    apply ancestor_0 in Hb as [-> _].
    simpl. unfold deref. rewrite Ho. simpl.
    by rewrite (declares_false _ _ _ _ Ho Hbd), Hroot.
  - unfold rootAt in Hroot.
    destruct (ancestor h s (S k)) as [r|] eqn:Hr; [|done].
    destruct (ancestor_S _ _ _ _ Hr) as (o & p & Ho & Hp & Hanc).
    destruct (Hnone 0 ltac:(lia)) as (b & Hb & Hbd).
    apply ancestor_0 in Hb as [-> _].
    simpl. unfold deref. rewrite Ho. simpl.
    rewrite (declares_false _ _ _ _ Ho Hbd), Hp.
    apply IH; [|  |lia].
    + unfold rootAt. by rewrite Hanc.
    + intros i Hi. destruct (Hnone (S i) ltac:(lia)) as (b & Hb & Hbd').
      exists b. split; [|done]. simpl in Hb. by rewrite Ho, Hp in Hb.
Qed.

(** Whenever the receiving scope has no value for the name, [resolveValue]
    answers [undefined] at once, with or without a variant filter: the
    parent is consulted only when a value is present and the filter
    rejects it. *)
Lemma resolveValue_absent_here (h : Heap) s o nm ty fuel :
  h !! s = Some o → cim_get (value o) nm = None →
  resolveValue instanceOf (S fuel) h s nm ty = Return JSUndefined.
Proof. intros Ho Hv. simpl. unfold deref. rewrite Ho. simpl. by rewrite Hv. Qed.

Lemma insert_fresh (h : Heap) s o y :
  h !! s = Some o → has o y = false →
  insert h s y = Return (<[s := inserted o y]> h).
Proof.
  intros Ho Hhas. unfold insert, deref. rewrite Ho. simpl. rewrite Hhas.
  do 2 f_equal. unfold inserted.
  destruct y as [n ty|n]; simpl; [|done]. by destruct (defaultValue ty).
Qed.

(** C6. [insert(y)] on scope [s]: when the declaration table of [s] itself
    has the name of [y] (compared without case) the call throws the
    redeclaration error; otherwise [y] is stored in [s], a second insertion
    in [s] of any symbol with the same name up to case is refused, the
    value table is seeded with the default value when [y] is a variable
    whose type has one (and is unchanged otherwise), and a later insertion
    of the same name in another scope [c] (a nested one in particular)
    whose own table lacks it succeeds. *)
Theorem insert_redeclaration_and_shadowing (h : Heap) s o y :
  h !! s = Some o →
  (has o y = true →
     insert h s y
     = Throw (PSIError y ("Symbol " ++ symbolName y ++ " is being redeclared")))
  ∧ (has o y = false →
     insert h s y = Return (<[s := inserted o y]> h)
     ∧ cim_get (scope (inserted o y)) (symbolName y) = Some y
     ∧ (∀ y', toLowerCase (symbolName y') = toLowerCase (symbolName y) →
          insert (<[s := inserted o y]> h) s y'
          = Throw (PSIError y' ("Symbol " ++ symbolName y' ++ " is being redeclared")))
     ∧ (∀ n ty d, y = VariableSymbol n ty → defaultValue ty = Some d →
          resolveValueThisScopeOnly (<[s := inserted o y]> h) s n
          = Return (JSObject d))
     ∧ ((∀ n ty, y = VariableSymbol n ty → defaultValue ty = None) →
          value (inserted o y) = value o)
     ∧ (∀ c oc y', c ≠ s → h !! c = Some oc →
          toLowerCase (symbolName y') = toLowerCase (symbolName y) →
          has oc y' = false →
          insert (<[s := inserted o y]> h) c y'
          = Return (<[c := inserted oc y']> (<[s := inserted o y]> h)))).
Proof.
  intros Ho. split.
  - intros Hhas. unfold insert, deref. rewrite Ho. simpl. by rewrite Hhas.
  - intros Hhas. split; [by apply insert_fresh|].
    split; [by apply cim_get_set|]. split; [|split; [|split]].
    + intros y' Hy'. unfold insert, deref. rewrite lookup_insert_eq. simpl.
      assert (has (inserted o y) y' = true) as ->; [|done].
      apply cim_has_get. exists y. by apply cim_get_set.
    + intros n ty d -> Hd. unfold resolveValueThisScopeOnly, deref.
      rewrite lookup_insert_eq. simpl. rewrite Hd.
      by rewrite cim_get_set.
    + intros Hnone. destruct y as [n ty|n]; simpl; [|done].
      by rewrite (Hnone n ty eq_refl).
    + intros c oc y' Hc Hoc _ Hhas'. apply insert_fresh; [|done].
      by rewrite lookup_insert_ne.
Qed.

(** C7. When [nm] is declared in [s] or in an ancestor of [s] (the scope
    [a], [k] steps outward), [changeValue(nm, v)] called on [s] returns,
    and the only change is the entry of [nm] in the value table of [d],
    the nearest scope on the way outward whose declaration table has [nm];
    value tables play no part in choosing [d]. *)
Theorem changeValue_writes_declaring_scope (h : Heap) s nm v k a :
  ancestor h s k = Some a → declares h a nm = true →
  ∃ j d od, j ≤ k ∧ ancestor h s j = Some d ∧ declares h d nm = true
    ∧ (∀ i, i < j → ∃ b, ancestor h s i = Some b ∧ declares h b nm = false)
    ∧ h !! d = Some od
    ∧ ∀ fuel, j < fuel →
        changeValue fuel h s nm v
        = Return (<[d := set_value od (cim_set (value od) nm v)]> h)
        ∧ resolveValueThisScopeOnly
            (<[d := set_value od (cim_set (value od) nm v)]> h) d nm
          = Return (JSObject v).
Proof.
  intros Ha Hdecl.
  destruct (findScope_nearest h nm k s a Ha Hdecl)
    as (j & d & Hj & Hd & Hdd & Hbefore & Hrun).
  destruct (declares_true _ _ _ Hdd) as (od & y & Hod & _).
  exists j, d, od. repeat (split; [done|]).
  intros fuel Hf. split.
  - unfold changeValue. rewrite (Hrun fuel Hf). simpl.
    unfold deref. by rewrite Hod.
  - unfold resolveValueThisScopeOnly, deref. rewrite lookup_insert_eq. simpl.
    by rewrite cim_get_set.
Qed.

(** C10. [changeValue] and [changeArrayValue] rely on the name being
    declared: when the walk outward from [s] ends at a scope without parent
    and no scope on the way declares [nm], [findScope] answers null and
    both calls end in a [TypeError], neither a [PSIError] nor a silent
    return; when some scope on the way declares [nm], [findScope] answers a
    scope, [changeValue] returns, and [changeArrayValue] goes on as it would
    when called on that scope. *)
Theorem changeValue_requires_declaration (h : Heap) s nm v accessors k :
  (rootAt h s k = true →
   (∀ i, i ≤ k → ∃ b, ancestor h s i = Some b ∧ declares h b nm = false) →
   ∀ fuel, k < fuel →
     findScope fuel h s nm = Return None
     ∧ changeValue fuel h s nm v = Throw TypeError
     ∧ changeArrayValue arrayChangeValue fuel h s nm accessors v
       = Throw TypeError)
  ∧ (∀ a, ancestor h s k = Some a → declares h a nm = true →
     ∀ fuel, k < fuel →
       ∃ d h', findScope fuel h s nm = Return (Some d)
         ∧ declares h d nm = true
         ∧ changeValue fuel h s nm v = Return h'
         ∧ changeArrayValue arrayChangeValue fuel h s nm accessors v
           = changeArrayValue arrayChangeValue 1 h d nm accessors v).
Proof.
  split.
  - intros Hroot Hnone fuel Hf.
    pose proof (findScope_null h nm k s Hroot Hnone fuel Hf) as Hnull.
    unfold changeValue, changeArrayValue. by rewrite Hnull.
  - intros a Ha Hdecl fuel Hf.
    destruct (findScope_nearest h nm k s a Ha Hdecl)
      as (j & d & Hj & Hd & Hdd & _ & Hrun).
    destruct (declares_true _ _ _ Hdd) as (od & y & Hod & Hy).
    exists d. eexists. split; [apply Hrun; lia|]. split; [done|]. split.
    + unfold changeValue. rewrite (Hrun fuel) by lia. simpl.
      unfold deref. rewrite Hod. reflexivity.
    + unfold changeArrayValue. rewrite (Hrun fuel) by lia.
      simpl. unfold deref. rewrite Hod. simpl. rewrite Hy. simpl.
      destruct (resolveValueThisScopeOnly h d nm) as [[| |arr]| |];
        simpl; try done.
      destruct (arrayChangeValue arr accessors v); simpl; [|done].
      by rewrite Hod.
Qed.

End ScopeFacts.

(** *** The scope model on a small scope tree *)

Section ScopeExamples.
Import SymbolScope.

Lemma scopes1_built : insert scopes0 0 symbolX = Return scopes1.
Proof. vm_compute. reflexivity. Qed.

Lemma scopes2_built : changeValue 2 scopes1 1 "X" 7%Z = Return scopes2.
Proof. vm_compute. reflexivity. Qed.

(** C1 (the code departs from the claim). The value of [x] is stored in the
    global scope only.  Asked from the global scope, [resolveValue] finds
    it; asked from the nested scope, it answers [undefined], with or
    without a variant filter: it neither walks outward to the stored value
    nor answers null.  [resolve], whose test is parenthesised the other
    way, does walk outward on the same scopes. *)
Theorem resolveValue_misses_ancestor_value :
  resolveValue anyClass 2 scopes2 0 "x" None = Return (JSObject 7%Z)
  ∧ resolveValue anyClass 2 scopes2 1 "x" None = Return JSUndefined
  ∧ resolveValue anyClass 2 scopes2 1 "x" (Some tt) = Return JSUndefined
  ∧ resolveValue anyClass 2 scopes2 1 "x" None ≠ Return (JSObject 7%Z)
  ∧ resolve 2 scopes2 1 "x" None = Return (JSObject symbolX).
Proof.
  repeat split; try (vm_compute; reflexivity).
  vm_compute. discriminate.
Qed.

Lemma insert_redeclaration_and_shadowing_witness :
  scopes0 !! 0 = Some (newScope "global" None)
  ∧ insert scopes0 0 symbolX = Return scopes1
  ∧ insert scopes1 0 (ProcedureSymbol "X")
    = Throw (PSIError (ProcedureSymbol "X") "Symbol X is being redeclared")
  ∧ resolveValueThisScopeOnly scopes1 0 "x" = Return (JSObject 0%Z)
  ∧ ∃ h2, insert scopes1 1 (VariableSymbol "X" bareType) = Return h2.
Proof.
  pose proof (insert_redeclaration_and_shadowing scopes0 0
                (newScope "global" None) symbolX eq_refl) as [_ Hfresh].
  destruct (Hfresh eq_refl) as (Hins & _ & Hagain & Hseed & _ & Hshadow).
  split; [reflexivity|]. split; [exact Hins|].
  split; [exact (Hagain (ProcedureSymbol "X") eq_refl)|].
  split; [exact (Hseed "x" intType 0%Z eq_refl eq_refl)|].
  eexists.
  exact (Hshadow 1 (newScope "proc" (Some 0)) (VariableSymbol "X" bareType)
           ltac:(discriminate) eq_refl eq_refl eq_refl).
Defined.

Lemma changeValue_writes_declaring_scope_witness :
  ancestor scopes1 1 1 = Some 0 ∧ declares scopes1 0 "X" = true
  ∧ ∃ j d od, j ≤ 1 ∧ ancestor scopes1 1 j = Some d
      ∧ declares scopes1 d "X" = true
      ∧ (∀ i, i < j →
           ∃ b, ancestor scopes1 1 i = Some b ∧ declares scopes1 b "X" = false)
      ∧ scopes1 !! d = Some od
      ∧ ∀ fuel, j < fuel →
          changeValue fuel scopes1 1 "X" 7%Z
          = Return (<[d := set_value od (cim_set (value od) "X" 7%Z)]> scopes1)
          ∧ resolveValueThisScopeOnly
              (<[d := set_value od (cim_set (value od) "X" 7%Z)]> scopes1) d "X"
            = Return (JSObject 7%Z).
Proof.
  split; [reflexivity|]. split; [reflexivity|].
  exact (changeValue_writes_declaring_scope scopes1 1 "X" 7%Z 1 0
           eq_refl eq_refl).
Defined.

Lemma changeValue_requires_declaration_witness :
  (findScope 2 scopes1 1 "y" = Return None
   ∧ changeValue 2 scopes1 1 "y" 5%Z = Throw TypeError
   ∧ changeArrayValue noArrays 2 scopes1 1 "y" [] 5%Z = Throw TypeError)
  ∧ ∃ d h', findScope 2 scopes1 1 "x" = Return (Some d)
      ∧ declares scopes1 d "x" = true
      ∧ changeValue 2 scopes1 1 "x" 5%Z = Return h'
      ∧ changeArrayValue noArrays 2 scopes1 1 "x" [] 5%Z
        = changeArrayValue noArrays 1 scopes1 d "x" [] 5%Z.
Proof.
  split.
  - refine (proj1 (changeValue_requires_declaration noArrays scopes1 1 "y"
                     5%Z [] 1) eq_refl _ 2 _); [|lia].
    intros [|[|i]] Hi; [by exists 1|by exists 0|lia].
  - exact (proj2 (changeValue_requires_declaration noArrays scopes1 1 "x"
                    5%Z [] 1) 0 eq_refl eq_refl 2 ltac:(lia)).
Defined.

End ScopeExamples.

(** ** The parser *)

Section ParserFacts.
Import Lexer Parser.

Context {TokenValue : Type}.
Context (val : nat → TokenValue) (from to : nat → Position).

Abbreviation literal i := (IntegerConstantAST (spanAt from to i) (val i)).
Abbreviation parserOn kinds := (newParser (stream val from to kinds)).

(** Each binary rule applies its operator at most once, and the right
    operand is what the same rule makes of the rest of the input. *)
Ltac after_left_operand H :=
  simpl; unfold mbind at 1, M_bind at 1; rewrite H;
  unfold mbind at 1, M_bind at 1, get_currentToken; unfold instanceOf.

Lemma expression_applies_operator (fuel : nat) (st st1 : @State TokenValue)
    (l : AST) (op : BinaryOperator) :
  tier op = ExprTier → term fuel st = Return (l, st1) →
  kind (currentToken st1) = operatorToken op →
  expression (S fuel) st
  = rightOperand (operatorToken op) (expression fuel)
      (operatorNode op (tokenSpan (currentToken st1)) l) st1.
Proof.
  intros Htier Hterm Hkind. after_left_operand Hterm. rewrite Hkind.
  destruct op; try discriminate Htier; reflexivity.
Qed.

Lemma term_applies_operator (fuel : nat) (st st1 : @State TokenValue)
    (l : AST) (op : BinaryOperator) :
  tier op = TermTier → comparison fuel st = Return (l, st1) →
  kind (currentToken st1) = operatorToken op →
  term (S fuel) st
  = rightOperand (operatorToken op) (term fuel)
      (operatorNode op (tokenSpan (currentToken st1)) l) st1.
Proof.
  intros Htier Hleft Hkind. after_left_operand Hleft. rewrite Hkind.
  destruct op; try discriminate Htier; reflexivity.
Qed.

Lemma comparison_applies_operator (fuel : nat) (st st1 : @State TokenValue)
    (l : AST) (op : BinaryOperator) :
  tier op = ComparisonTier → factor fuel st = Return (l, st1) →
  kind (currentToken st1) = operatorToken op →
  comparison (S fuel) st
  = rightOperand (operatorToken op) (comparison fuel)
      (operatorNode op (tokenSpan (currentToken st1)) l) st1.
Proof.
  intros Htier Hleft Hkind. after_left_operand Hleft. rewrite Hkind.
  destruct op; try discriminate Htier; reflexivity.
Qed.

(** Without an operator of its tier after the left operand, a rule returns
    the left operand alone. *)
Lemma expression_without_operator (fuel : nat) (st st1 : @State TokenValue)
    (l : AST) :
  term fuel st = Return (l, st1) →
  (∀ op, tier op = ExprTier → kind (currentToken st1) ≠ operatorToken op) →
  expression (S fuel) st = Return (l, st1).
Proof.
  intros Hleft Hnone. after_left_operand Hleft.
  rewrite (bool_decide_eq_false_2 _ (Hnone Plus eq_refl)).
  rewrite (bool_decide_eq_false_2 _ (Hnone Minus eq_refl)).
  by rewrite (bool_decide_eq_false_2 _ (Hnone Or eq_refl)).
Qed.

(** C3. For two operators of the same rule, the tokens of [a op1 b op2 c]
    parse to [op1(a, op2(b, c))]: the right operand of [op1] is what the
    same rule makes of the rest.  The left-leaning tree
    [op2(op1(a, b), c)] is never the result. *)
Theorem same_tier_associates_right (op1 op2 : BinaryOperator) (fuel : nat) :
  tier op1 = tier op2 →
  let kinds := [IntegerConstToken; operatorToken op1; IntegerConstToken;
                operatorToken op2; IntegerConstToken] in
  (∃ st', expression (8 + fuel) (parserOn kinds)
          = Return (operatorNode op1 (spanAt from to 1) (literal 0)
                      (operatorNode op2 (spanAt from to 3) (literal 2) (literal 4)),
                    st')
          ∧ atEnd val from to kinds st')
  ∧ ∀ st', expression (8 + fuel) (parserOn kinds)
           ≠ Return (operatorNode op2 (spanAt from to 3)
                       (operatorNode op1 (spanAt from to 1) (literal 0) (literal 2))
                       (literal 4),
                     st').
Proof.
  intros Htier kinds. subst kinds.
  destruct op1, op2; try discriminate Htier;
    (split; [eexists; split; [vm_compute; reflexivity|split; reflexivity]
            |intros st'; vm_compute; discriminate]).
Qed.

(** C4. The rules nest [expression] over [term] over [comparison]: when
    the rule of [inner] sits deeper than the rule of [outer], the node of
    [inner] ends up inside the node of [outer] whichever comes first in the
    input.  [a outer b inner c] parses to [outer(a, inner(b, c))] and
    [a inner b outer c] to [outer(inner(a, b), c)]; with [+] and [*] this
    is [Plus(1, Multiplication(2, 3))], with [*] and [=] it is
    [Multiplication(1, Equals(2, 3))]. *)
Theorem deeper_tier_binds_inside (outer inner : BinaryOperator) (fuel : nat) :
  tierDepth (tier outer) < tierDepth (tier inner) →
  let kinds1 := [IntegerConstToken; operatorToken outer; IntegerConstToken;
                 operatorToken inner; IntegerConstToken] in
  let kinds2 := [IntegerConstToken; operatorToken inner; IntegerConstToken;
                 operatorToken outer; IntegerConstToken] in
  (∃ st', expression (8 + fuel) (parserOn kinds1)
          = Return (operatorNode outer (spanAt from to 1) (literal 0)
                      (operatorNode inner (spanAt from to 3) (literal 2) (literal 4)),
                    st')
          ∧ atEnd val from to kinds1 st')
  ∧ (∃ st', expression (8 + fuel) (parserOn kinds2)
            = Return (operatorNode outer (spanAt from to 3)
                        (operatorNode inner (spanAt from to 1) (literal 0) (literal 2))
                        (literal 4),
                      st')
            ∧ atEnd val from to kinds2 st').
Proof.
  intros Hdepth kinds1 kinds2. subst kinds1 kinds2.
  destruct outer, inner; simpl in Hdepth; try lia;
    (split; eexists; (split; [vm_compute; reflexivity|split; reflexivity])).
Qed.

(** C9. When the current token is none of [begin], an identifier, [if],
    [for], [while] and [repeat], [statement()] returns an [Empty] node
    positioned at the current token and leaves the parser as it was:
    current token, previous token and lexer (hence the lookahead) are
    unchanged. *)
Theorem statement_empty_consumes_nothing (fuel : nat) (st : @State TokenValue) :
  kind (currentToken st)
    ∉ [BeginToken; IdToken; IfToken; ForToken; WhileToken; RepeatToken] →
  ∃ st', statement (S fuel) st
         = Return (EmptyAST (tokenSpan (currentToken st)), st')
    ∧ st' = st
    ∧ currentToken st' = currentToken st
    ∧ peekNextToken (lexer st') = peekNextToken (lexer st).
Proof.
  intros Hkind. exists st. split; [|done].
  destruct st as [[k v s e] prev lx]. simpl in Hkind.
  destruct k;
    first [ exfalso; apply Hkind; solve [repeat constructor]
          | vm_compute; reflexivity ].
Qed.

(** [statementList()] after its first statement and its loop: the test on
    the current and the previous token decides between the error and the
    statements. *)
Lemma statementList_after_loop (fuel : nat) (st st' : @State TokenValue)
    (statements : list AST) :
  (first ← statement fuel; statementList_loop fuel [first]) st
    = Return (statements, st') →
  statementList (S fuel) st
  = (if negb (bool_decide (kind (currentToken st') ∈ [EndToken; UntilToken]))
        && negb (match previousToken st' with
                 | Some p => instanceOf p SemiToken
                 | None => false
                 end)
     then
       provider ← previousTokenEndLocationProvider;
       throw (PSIError provider "Expected statement to end with a semi colon")
     else mret statements) st'.
Proof.
  intros Hloop.
  change (statementList (S fuel) st) with
    ((statements ← (first ← statement fuel; statementList_loop fuel [first]);
      cur ← get_currentToken;
      prev ← get_previousToken;
      if negb (bool_decide (kind cur ∈ [EndToken; UntilToken]))
         && negb (match prev with
                  | Some p => instanceOf p SemiToken
                  | None => false
                  end)
      then
        provider ← previousTokenEndLocationProvider;
        throw (PSIError provider "Expected statement to end with a semi colon")
      else mret statements) st).
  unfold mbind at 1, M_bind at 1. rewrite Hloop.
  unfold mbind at 1, M_bind at 1, get_currentToken.
  unfold mbind at 1, M_bind at 1, get_previousToken.
  reflexivity.
Qed.

(** C5. Once the first statement and the loop over [; statement] of
    [statementList()] have run, leaving the parser in [st']: when the
    current token is neither [end] nor [until] and the token consumed last
    is not a semicolon, the call throws the missing-separator error located
    at the end of that token, one column back; when the current token is
    [end] or [until], or the token consumed last is a semicolon, the call
    returns the statements. *)
Theorem statementList_separator_check (fuel : nat) (st st' : @State TokenValue)
    (statements : list AST) :
  (first ← statement fuel; statementList_loop fuel [first]) st
    = Return (statements, st') →
  (∀ p, kind (currentToken st') ∉ [EndToken; UntilToken] →
        previousToken st' = Some p → kind p ≠ SemiToken →
        statementList (S fuel) st
        = Throw (PSIError (afterPrevious p)
                   "Expected statement to end with a semi colon"))
  ∧ (kind (currentToken st') ∈ [EndToken; UntilToken]
     ∨ (∃ p, previousToken st' = Some p ∧ kind p = SemiToken) →
     statementList (S fuel) st = Return (statements, st')).
Proof.
  intros Hloop. rewrite (statementList_after_loop _ _ _ _ Hloop). split.
  - intros p Hcur Hprev Hsemi. rewrite Hprev. unfold instanceOf.
    rewrite (bool_decide_eq_false_2 _ Hcur).
    rewrite (bool_decide_eq_false_2 _ Hsemi). simpl.
    unfold mbind, M_bind, previousTokenEndLocationProvider, throw.
    by rewrite Hprev.
  - intros [Hcur|(p & Hprev & Hsemi)].
    + by rewrite (bool_decide_eq_true_2 _ Hcur).
    + rewrite Hprev. unfold instanceOf.
      rewrite (bool_decide_eq_true_2 _ Hsemi). simpl.
      by rewrite andb_false_r.
Qed.

(** Before any token has been consumed there is no previous token to
    locate the error at: the error path then ends in a [TypeError].  No
    caller of [statementList()] is in that situation, each consumes
    [begin] or [repeat] first. *)
Lemma statementList_without_previous (fuel : nat) (st st' : @State TokenValue)
    (statements : list AST) :
  (first ← statement fuel; statementList_loop fuel [first]) st
    = Return (statements, st') →
  kind (currentToken st') ∉ [EndToken; UntilToken] →
  previousToken st' = None →
  statementList (S fuel) st = Throw TypeError.
Proof.
  intros Hloop Hcur Hprev. rewrite (statementList_after_loop _ _ _ _ Hloop).
  rewrite Hprev, (bool_decide_eq_false_2 _ Hcur). simpl.
  unfold mbind, M_bind, previousTokenEndLocationProvider.
  by rewrite Hprev.
Qed.

(** [eat] records the consumed token as the previous one. *)
Lemma eat_records_previous (type : TokenKind) (message : option string)
    (previousTokenThrow : bool) (st st' : @State TokenValue) (t : Lexer.Token TokenValue) :
  eat type message previousTokenThrow st = Return (t, st') →
  kind (currentToken st) = type
  ∧ previousToken st' = Some (currentToken st)
  ∧ (t, lexer st') = getNextToken (lexer st).
Proof.
  unfold eat, instanceOf. case_bool_decide as Hk.
  - destruct (getNextToken (lexer st)) as [t' lx]. intros [= <- <-]. done.
  - unfold mbind, M_bind, throw.
    destruct previousTokenThrow; [|done].
    unfold previousTokenEndLocationProvider.
    by destruct (previousToken st).
Qed.

(** C8. The tokens of [if a then s1 else if b then s2 else s3], with
    assignments for the three statements, parse to the first [If] node;
    its "next" link leads to the second [If] and the "next" link of that
    one to [s3].  Followed from the first node the links give the three
    alternatives in source order, and the branch of each [If] is its own
    statement, not a further [If]. *)
Theorem ifStatement_links_chain (fuel : nat) :
  let kinds := [IfToken; IdToken; ThenToken;
                IdToken; AssignToken; IntegerConstToken;
                ElseToken; IfToken; IdToken; ThenToken;
                IdToken; AssignToken; IntegerConstToken;
                ElseToken;
                IdToken; AssignToken; IntegerConstToken] in
  let var i := VariableAST (spanAt from to i) (val i) in
  let assign i := AssignmentAST (spanAt from to (S i)) (var i) (literal (S (S i))) in
  ∃ st',
    ifStatement (12 + fuel) (parserOn kinds)
    = Return (IfAST (spanAt from to 0) (var 1) (assign 3)
                (Some (IfAST (spanAt from to 7) (var 8) (assign 10)
                         (Some (assign 14)))),
              st')
    ∧ atEnd val from to kinds st'
    ∧ alternatives (IfAST (spanAt from to 0) (var 1) (assign 3)
                      (Some (IfAST (spanAt from to 7) (var 8) (assign 10)
                               (Some (assign 14)))))
      = [IfAST (spanAt from to 0) (var 1) (assign 3) None;
         IfAST (spanAt from to 7) (var 8) (assign 10) None;
         assign 14].
Proof.
  intros kinds var assign. subst kinds var assign.
  eexists. split; [vm_compute; reflexivity|].
  split; [split; reflexivity|reflexivity].
Qed.

End ParserFacts.

(** *** The parser on sample streams *)

Section ParserExamples.
Import Lexer Parser.

Abbreviation sample kinds := (newParser (stream sampleVal sampleFrom sampleTo kinds)).
Abbreviation at_ i := (spanAt sampleFrom sampleTo i).

(** "1 + 2 + 3" *)
Lemma same_tier_associates_right_witness :
  tier Plus = tier Plus
  ∧ ∃ st',
      expression 8 (sample [IntegerConstToken; PlusToken; IntegerConstToken;
                            PlusToken; IntegerConstToken])
      = Return (PlusAST (at_ 1) (IntegerConstantAST (at_ 0) 1%Z)
                  (PlusAST (at_ 3) (IntegerConstantAST (at_ 2) 2%Z)
                     (IntegerConstantAST (at_ 4) 3%Z)),
                st').
Proof.
  split; [reflexivity|].
  destruct (same_tier_associates_right sampleVal sampleFrom sampleTo
              Plus Plus 0 eq_refl) as [(st' & Hparse & _) _].
  exists st'. exact Hparse.
Defined.

(** "1 + 2 * 3" and "1 * 2 = 3" *)
Lemma deeper_tier_binds_inside_witness :
  tierDepth (tier Plus) < tierDepth (tier Multiplication)
  ∧ tierDepth (tier Multiplication) < tierDepth (tier Equals)
  ∧ (∃ st',
       expression 8 (sample [IntegerConstToken; PlusToken; IntegerConstToken;
                             MultiplicationToken; IntegerConstToken])
       = Return (PlusAST (at_ 1) (IntegerConstantAST (at_ 0) 1%Z)
                   (MultiplicationAST (at_ 3) (IntegerConstantAST (at_ 2) 2%Z)
                      (IntegerConstantAST (at_ 4) 3%Z)),
                 st'))
  ∧ (∃ st',
       expression 8 (sample [IntegerConstToken; MultiplicationToken;
                             IntegerConstToken; EqualsToken; IntegerConstToken])
       = Return (MultiplicationAST (at_ 1) (IntegerConstantAST (at_ 0) 1%Z)
                   (EqualsAST (at_ 3) (IntegerConstantAST (at_ 2) 2%Z)
                      (IntegerConstantAST (at_ 4) 3%Z)),
                 st')).
Proof.
  split; [simpl; lia|]. split; [simpl; lia|]. split.
  - destruct (deeper_tier_binds_inside sampleVal sampleFrom sampleTo
                Plus Multiplication 0 ltac:(simpl; lia))
      as [(st' & Hparse & _) _].
    exists st'. exact Hparse.
  - destruct (deeper_tier_binds_inside sampleVal sampleFrom sampleTo
                Multiplication Equals 0 ltac:(simpl; lia))
      as [(st' & Hparse & _) _].
    exists st'. exact Hparse.
Defined.

Lemma kind_among (k : TokenKind) (kinds : list TokenKind) :
  bool_decide (k ∈ kinds) = true → k ∈ kinds.
Proof. apply bool_decide_eq_true. Qed.

Lemma kind_not_among (k : TokenKind) (kinds : list TokenKind) :
  bool_decide (k ∈ kinds) = false → k ∉ kinds.
Proof. apply bool_decide_eq_false. Qed.

(** The statement between [;] and [end] is empty. *)
Lemma statement_empty_consumes_nothing_witness :
  (kind (currentToken (sample [EndToken; DotToken]))
     ∉ [BeginToken; IdToken; IfToken; ForToken; WhileToken; RepeatToken])
  ∧ ∃ st', statement 1 (sample [EndToken; DotToken])
           = Return (EmptyAST (at_ 0), st')
      ∧ st' = sample [EndToken; DotToken]
      ∧ currentToken st' = currentToken (sample [EndToken; DotToken])
      ∧ peekNextToken (lexer st')
        = peekNextToken (lexer (sample [EndToken; DotToken])).
Proof.
  split; [apply kind_not_among; reflexivity|].
  exact (statement_empty_consumes_nothing 0 (sample [EndToken; DotToken])
           (kind_not_among EndToken
              [BeginToken; IdToken; IfToken; ForToken; WhileToken; RepeatToken]
              eq_refl)).
Defined.

(** "x := 1 y := 2 end" lacks the separator after [1] (token 2, which ends
    at column 5); "x := 1 ; y := 2 end" has it. *)
Lemma statementList_separator_check_witness :
  statementList 9 (sample [IdToken; AssignToken; IntegerConstToken;
                           IdToken; AssignToken; IntegerConstToken; EndToken])
  = Throw (PSIError
             {| spanStart := {| linePosition := 1; characterPosition := 4 |};
                spanEnd := {| linePosition := 1; characterPosition := 4 |} |}
             "Expected statement to end with a semi colon")
  ∧ ∃ s1 s2 st',
      statementList 9 (sample [IdToken; AssignToken; IntegerConstToken;
                               SemiToken;
                               IdToken; AssignToken; IntegerConstToken; EndToken])
      = Return ([s1; s2], st')
      ∧ kind (currentToken st') = EndToken.
Proof.
  split.
  - eassert (Hloop : (first ← statement 8; statementList_loop 8 [first])
                       (sample [IdToken; AssignToken; IntegerConstToken;
                                IdToken; AssignToken; IntegerConstToken;
                                EndToken])
                     = Return (_, _)) by (cbv; reflexivity).
    exact (proj1 (statementList_separator_check 8 _ _ _ Hloop)
             (tokenAt sampleVal sampleFrom sampleTo 2 IntegerConstToken)
             (kind_not_among IdToken [EndToken; UntilToken] eq_refl) eq_refl ltac:(discriminate)).
  - eassert (Hloop : (first ← statement 8; statementList_loop 8 [first])
                       (sample [IdToken; AssignToken; IntegerConstToken;
                                SemiToken;
                                IdToken; AssignToken; IntegerConstToken;
                                EndToken])
                     = Return (_, _)) by (cbv; reflexivity).
    do 3 eexists. split.
    + apply (proj2 (statementList_separator_check 8 _ _ _ Hloop)).
      left. exact (kind_among EndToken [EndToken; UntilToken] eq_refl).
    + reflexivity.
Defined.

End ParserExamples.

(** * Further properties *)

(** ** AST.ts: [addChild] and the guards of [replace] *)

Section ASTMore.
Import AST.

Lemma findIndex_None this arr :
  findIndex this arr = None ↔ this ∉ arr.
Proof.
  induction arr as [|x rest IH]; simpl.
  - split; [intros _; apply not_elem_of_nil|done].
  - destruct (Nat.eqb_spec x this) as [->|Hne].
    + split; [done|]. intros Hnot. exfalso. apply Hnot. left.
    + destruct (findIndex this rest) as [i|]; simpl.
      * split; [done|]. intros Hnot. exfalso.
        assert (this ∉ rest) as Hrest by (intros ?; apply Hnot; by right).
        apply IH in Hrest. done.
      * split; [|done]. intros _ Hin.
        apply elem_of_cons in Hin as [->|Hin]; [done|].
        by apply (proj1 IH).
Qed.

Lemma findIndex_last this arr :
  this ∉ arr → findIndex this (arr ++ [this]) = Some (length arr).
Proof.
  induction arr as [|x rest IH]; simpl; intros Hnot.
  - by rewrite Nat.eqb_refl.
  - destruct (Nat.eqb_spec x this) as [->|Hne].
    + exfalso. apply Hnot. left.
    + rewrite IH; [done|]. intros ?. apply Hnot. by right.
Qed.

Lemma addChild1_effect (h : gmap ref Node) (this child : ref) (t c : Node) :
  h !! this = Some t → h !! child = Some c →
  ∃ h', addChild1 h this child = Return h'
    ∧ childrenOf h' this = Some (_children t ++ [child])
    ∧ parentOf h' child = Some (Some this)
    ∧ (∀ x, x ≠ child → parentOf h' x = parentOf h x)
    ∧ (∀ x, x ≠ this → childrenOf h' x = childrenOf h x)
    ∧ (∀ x, is_Some (h !! x) → is_Some (h' !! x)).
Proof.
  intros Ht Hc. unfold addChild1, deref, parentOf, childrenOf.
  rewrite Hc. simpl.
  destruct (decide (this = child)) as [->|Hne].
  - rewrite lookup_insert_eq. simpl. eexists. split; [reflexivity|].
    rewrite Ht in Hc. injection Hc as <-.
    repeat split.
    + by rewrite lookup_insert_eq.
    + by rewrite lookup_insert_eq.
    + intros x Hx. by rewrite !lookup_insert_ne.
    + intros x Hx. by rewrite !lookup_insert_ne.
    + intros x Hx. destruct (decide (x = child)) as [->|Hxc].
      * rewrite lookup_insert_eq. eauto.
      * by rewrite !lookup_insert_ne.
  - rewrite lookup_insert_ne, Ht by done. simpl.
    eexists. split; [reflexivity|]. repeat split.
    + by rewrite lookup_insert_eq.
    + rewrite lookup_insert_ne by done. by rewrite lookup_insert_eq.
    + intros x Hx. destruct (decide (x = this)) as [->|Hxt].
      * rewrite lookup_insert_eq, Ht. done.
      * by rewrite !lookup_insert_ne.
    + intros x Hx. rewrite lookup_insert_ne by done.
      destruct (decide (x = child)) as [->|Hxc].
      * rewrite lookup_insert_eq, Hc. done.
      * by rewrite lookup_insert_ne.
    + intros x Hx. destruct (decide (x = this)) as [->|Hxt].
      * rewrite lookup_insert_eq. eauto.
      * rewrite lookup_insert_ne by done.
        destruct (decide (x = child)) as [->|Hxc].
        -- rewrite lookup_insert_eq. eauto.
        -- by rewrite lookup_insert_ne.
Qed.

(** [addChild(...children)] on existing nodes returns; afterwards the
    children are appended, in order, to the receiver's child sequence,
    each of them has the receiver as parent, and no other parent link and
    no other child sequence has changed. *)
Theorem addChild_effect (children : list ref) : ∀ (h : gmap ref Node) this t,
  h !! this = Some t →
  (∀ c, c ∈ children → is_Some (h !! c)) →
  ∃ h', addChild h this children = Return h'
    ∧ childrenOf h' this = Some (_children t ++ children)
    ∧ (∀ c, c ∈ children → parentOf h' c = Some (Some this))
    ∧ (∀ x, x ∉ children → parentOf h' x = parentOf h x)
    ∧ (∀ x, x ≠ this → childrenOf h' x = childrenOf h x).
Proof.
  induction children as [|c rest IH]; intros h this t Ht Hall; simpl.
  - exists h. split; [done|]. unfold childrenOf. rewrite Ht. simpl.
    rewrite app_nil_r. repeat split; try done.
    intros c Hc. by apply elem_of_nil in Hc.
  - destruct (Hall c ltac:(left)) as [co Hco].
    destruct (addChild1_effect h this c t co Ht Hco)
      as (h1 & -> & Hch1 & Hpar1 & Hframe1 & Hkids1 & Hdom1).
    simpl. unfold childrenOf in Hch1.
    destruct (h1 !! this) as [t1|] eqn:Ht1; [|done].
    simpl in Hch1. injection Hch1 as Hch1.
    destruct (IH h1 this t1 Ht1) as (h' & Hrun & Hch & Hpar & Hframe & Hkids).
    { intros c' Hc'. apply Hdom1, Hall. by right. }
    exists h'. split; [done|]. split; [|split; [|split]].
    + rewrite Hch, Hch1. by rewrite <- app_assoc.
    + intros c' Hc'. destruct (decide (c' ∈ rest)) as [Hin|Hout].
      * by apply Hpar.
      * apply elem_of_cons in Hc' as [->|Hc']; [|done].
        by rewrite (Hframe c Hout).
    + intros x Hx. rewrite Hframe, Hframe1; [done| |].
      * intros ->. apply Hx. left.
      * intros ?. apply Hx. by right.
    + intros x Hx. by rewrite Hkids, Hkids1.
Qed.

(** [replace] throws its consistency error exactly when the receiver has
    no parent or does not occur, as a reference, among the children of its
    parent; otherwise it returns the receiver. *)
Theorem replace_guards (h : gmap ref Node) (r n : ref) (t : Node) :
  h !! r = Some t →
  (parent t = None →
     replace h r n = Throw (Error "Invalid tree configuration"))
  ∧ (∀ p po, parent t = Some p → h !! p = Some po →
       (r ∉ _children po →
          replace h r n = Throw (Error "Invalid tree configuration"))
       ∧ (r ∈ _children po → ∃ h', replace h r n = Return (r, h'))).
Proof.
  intros Hr. split.
  - intros Hp. unfold replace, deref. rewrite Hr. simpl. by rewrite Hp.
  - intros p po Hp Hpo. split.
    + intros Hnot. unfold replace, deref. rewrite Hr. simpl.
      rewrite Hp, Hpo. simpl. by rewrite (proj2 (findIndex_None r _) Hnot).
    + intros Hin. destruct (findIndex r (_children po)) as [i|] eqn:Hi.
      * destruct (replace_effect h r n p t po i Hr Hp Hpo Hi) as (h' & Hrun & _).
        eauto.
      * apply findIndex_None in Hi. done.
Qed.

(** A node attached with [addChild] can be replaced at once: the new node
    takes the last place of the parent's child sequence and the replaced
    node is detached. *)
Theorem addChild_then_replace (h : gmap ref Node) (p r n : ref) (t c : Node) :
  h !! p = Some t → h !! r = Some c → r ∉ _children t →
  ∃ h1 h2, addChild h p [r] = Return h1
    ∧ replace h1 r n = Return (r, h2)
    ∧ childrenOf h2 p = Some (_children t ++ [n])
    ∧ parentOf h2 r = Some None.
Proof.
  intros Ht Hc Hnot.
  destruct (addChild1_effect h p r t c Ht Hc)
    as (h1 & Hrun & Hch1 & Hpar1 & _ & _ & _).
  exists h1. simpl. rewrite Hrun. simpl.
  unfold childrenOf in Hch1. destruct (h1 !! p) as [t1|] eqn:Ht1; [|done].
  simpl in Hch1. injection Hch1 as Hch1.
  unfold parentOf in Hpar1. destruct (h1 !! r) as [c1|] eqn:Hc1; [|done].
  simpl in Hpar1. injection Hpar1 as Hpar1.
  destruct (replace_effect h1 r n p c1 t1 (length (_children t)) Hc1 Hpar1 Ht1)
    as (h2 & Hrep & Hch2 & Hpar2 & _).
  { rewrite Hch1. by apply findIndex_last. }
  exists h2. split; [done|]. split; [done|]. split; [|done].
  rewrite Hch2, Hch1.
  rewrite insert_app_r_alt, Nat.sub_diag by lia. done.
Qed.

Lemma addChild_effect_witness :
  ∃ h', addChild family 0 [2; 3] = Return h'
    ∧ childrenOf h' 0 = Some [1; 2; 3]
    ∧ parentOf h' 2 = Some (Some 0) ∧ parentOf h' 3 = Some (Some 0)
    ∧ parentOf h' 1 = Some (Some 0).
Proof.
  destruct (addChild_effect [2; 3] family 0
              {| _children := [1]; parent := None |} eq_refl)
    as (h' & Hrun & Hch & Hpar & Hframe & _).
  { intros c Hc. apply elem_of_cons in Hc as [->|Hc]; [by eexists|].
    apply elem_of_cons in Hc as [->|Hc]; [by eexists|].
    by apply elem_of_nil in Hc. }
  exists h'. split; [exact Hrun|]. split; [exact Hch|].
  split; [apply Hpar; left|]. split; [apply Hpar; right; left|].
  rewrite Hframe; [reflexivity|].
  intros Hc. apply elem_of_cons in Hc as [Hc|Hc]; [discriminate|].
  apply elem_of_cons in Hc as [Hc|Hc]; [discriminate|].
  by apply elem_of_nil in Hc.
Defined.

Lemma replace_guards_witness :
  replace family 0 2 = Throw (Error "Invalid tree configuration")
  ∧ replace {[ 0 := mkNode [] None; 1 := mkNode [] (Some 0) ]} 1 0
    = Throw (Error "Invalid tree configuration")
  ∧ ∃ h', replace family 1 2 = Return (1, h').
Proof.
  split; [exact (proj1 (replace_guards family 0 2 _ eq_refl) eq_refl)|].
  split.
  - refine (proj1 (proj2 (replace_guards
                             {[ 0 := mkNode [] None; 1 := mkNode [] (Some 0) ]}
                             1 0 _ eq_refl) 0 _ eq_refl eq_refl) _).
    apply not_elem_of_nil.
  - refine (proj2 (proj2 (replace_guards family 1 2 _ eq_refl) 0 _ eq_refl eq_refl) _).
    left.
Defined.

Lemma addChild_then_replace_witness :
  ∃ h1 h2, addChild family 0 [2] = Return h1
    ∧ replace h1 2 3 = Return (2, h2)
    ∧ childrenOf h2 0 = Some [1; 3]
    ∧ parentOf h2 2 = Some None.
Proof.
  refine (addChild_then_replace family 0 2 3 _ _ eq_refl eq_refl _).
  intros Hc. apply elem_of_cons in Hc as [Hc|Hc]; [discriminate|].
  by apply elem_of_nil in Hc.
Defined.

End ASTMore.

(** ** SymbolScope.ts: lookups, writes and child scopes *)

Section ScopeMore.
Import SymbolScope.

Context {PSIDataType : Type}.
Context (arrayChangeValue :
  PSIDataType → list PSIDataType → PSIDataType → option PSIDataType).

Abbreviation Heap' := (gmap ref (@Scope PSIDataType)).

Lemma resolve_step (h : Heap') s o nm ty fuel :
  h !! s = Some o →
  resolve (S fuel) h s nm ty
  = match offers h s nm ty with
    | Some y => Return (JSObject y)
    | None =>
        match parent o with
        | Some p => resolve fuel h p nm ty
        | None => Return JSNull
        end
    end.
Proof.
  intros Ho. simpl. unfold deref, offers. rewrite Ho. simpl.
  destruct (cim_get (scope o) nm) as [y|]; [|done].
  destruct ty as [c|]; [|done]. by destruct (symbolInstanceOf y c).
Qed.

(** [findScope] answers only scopes met on the walk outward that declare
    the name, and the first of them. *)
Theorem findScope_sound (h : Heap') nm fuel : ∀ s d,
  findScope fuel h s nm = Return (Some d) →
  ∃ k, k < fuel ∧ ancestor h s k = Some d ∧ declares h d nm = true
    ∧ ∀ i, i < k → ∃ b, ancestor h s i = Some b ∧ declares h b nm = false.
Proof.
  induction fuel as [|fuel IH]; intros s d; simpl; [done|].
  unfold deref. destruct (h !! s) as [o|] eqn:Ho; simpl; [|done].
  destruct (cim_get (scope o) nm) as [y|] eqn:Hy.
  - intros [= <-]. exists 0. split; [lia|]. simpl. rewrite Ho.
    split; [done|]. split; [|intros i Hi; lia].
    unfold declares. rewrite Ho. apply cim_has_get. eauto.
  - destruct (parent o) as [p|] eqn:Hp; [|done].
    intros Hrun. destruct (IH p d Hrun) as (k & Hk & Hanc & Hdecl & Hbefore).
    exists (S k). split; [lia|]. simpl. rewrite Ho, Hp.
    split; [done|]. split; [done|].
    intros [|i] Hi.
    + exists s. simpl. rewrite Ho. split; [done|].
      unfold declares. rewrite Ho. by apply cim_has_false.
    + simpl. rewrite Ho, Hp. apply Hbefore. lia.
Qed.

(** [resolve] answers the symbol offered by the nearest scope, walking
    outward, whose declaration of the name passes the filter; scopes whose
    entry the filter rejects are walked past. *)
Theorem resolve_nearest (h : Heap') nm ty k : ∀ s a ya,
  ancestor h s k = Some a → offers h a nm ty = Some ya →
  ∃ j d y, j ≤ k ∧ ancestor h s j = Some d ∧ offers h d nm ty = Some y
    ∧ (∀ i, i < j → ∃ b, ancestor h s i = Some b ∧ offers h b nm ty = None)
    ∧ ∀ fuel, j < fuel → resolve fuel h s nm ty = Return (JSObject y).
Proof.
  induction k as [|k IH]; intros s a ya Ha Hoff.
  - apply ancestor_0 in Ha as [-> [o Ho]].
    exists 0, s, ya. split; [lia|]. split; [by simpl; rewrite Ho|].
    split; [done|]. split; [intros i Hi; lia|].
    intros [|fuel] Hf; [lia|]. by rewrite (resolve_step _ _ _ _ _ _ Ho), Hoff.
  - destruct (ancestor_S _ _ _ _ Ha) as (o & p & Ho & Hp & Hanc).
    destruct (offers h s nm ty) as [y|] eqn:Hs.
    + exists 0, s, y. split; [lia|]. split; [by simpl; rewrite Ho|].
      split; [done|]. split; [intros i Hi; lia|].
      intros [|fuel] Hf; [lia|]. by rewrite (resolve_step _ _ _ _ _ _ Ho), Hs.
    + destruct (IH p a ya Hanc Hoff)
        as (j & d & y & Hj & Hd & Hdy & Hbefore & Hrun).
      exists (S j), d, y. split; [lia|].
      split; [by simpl; rewrite Ho, Hp|]. split; [done|]. split.
      * intros [|i] Hi.
        -- exists s. split; [by simpl; rewrite Ho|done].
        -- destruct (Hbefore i ltac:(lia)) as (b & Hb & Hbd).
           exists b. split; [by simpl; rewrite Ho, Hp|done].
      * intros [|fuel] Hf; [lia|].
        rewrite (resolve_step _ _ _ _ _ _ Ho), Hs, Hp. apply Hrun. lia.
Qed.

(** What [resolve] returns is never [undefined]: it is null, or a symbol
    that a scope on the walk outward declares under the name and that
    passes the filter. *)
Theorem resolve_sound (h : Heap') nm ty fuel : ∀ s r,
  resolve fuel h s nm ty = Return r →
  r = JSNull
  ∨ ∃ y k d, r = JSObject y ∧ k < fuel ∧ ancestor h s k = Some d
      ∧ offers h d nm ty = Some y.
Proof.
  induction fuel as [|fuel IH]; intros s r; [done|].
  destruct (h !! s) as [o|] eqn:Ho.
  - rewrite (resolve_step _ _ _ _ _ _ Ho).
    destruct (offers h s nm ty) as [y|] eqn:Hoff.
    + intros [= <-]. right. exists y, 0, s. split; [done|]. split; [lia|].
      simpl. by rewrite Ho.
    + destruct (parent o) as [p|] eqn:Hp.
      * intros Hrun. destruct (IH p r Hrun) as [->|(y & k & d & -> & Hk & Hd & Hy)];
          [by left|].
        right. exists y, (S k), d. split; [done|]. split; [lia|].
        simpl. by rewrite Ho, Hp.
      * intros [= <-]. by left.
  - simpl. unfold deref. by rewrite Ho.
Qed.

(** When the walk outward ends at a scope without parent and no scope on
    the way offers a symbol for the name, [resolve] answers null. *)
Theorem resolve_null (h : Heap') nm ty k : ∀ s,
  rootAt h s k = true →
  (∀ i, i ≤ k → ∃ b, ancestor h s i = Some b ∧ offers h b nm ty = None) →
  ∀ fuel, k < fuel → resolve fuel h s nm ty = Return JSNull.
Proof.
  induction k as [|k IH]; intros s Hroot Hnone [|fuel] Hf; try lia.
  - unfold rootAt in Hroot.
    destruct (ancestor h s 0) as [r|] eqn:Hr; [|done].
    apply ancestor_0 in Hr as [-> [o Ho]]. rewrite Ho in Hroot.
    apply bool_decide_eq_true in Hroot.
    destruct (Hnone 0 ltac:(lia)) as (b & Hb & Hbd).
    apply ancestor_0 in Hb as [-> _].
    by rewrite (resolve_step _ _ _ _ _ _ Ho), Hbd, Hroot.
  - unfold rootAt in Hroot.
    destruct (ancestor h s (S k)) as [r|] eqn:Hr; [|done].
    destruct (ancestor_S _ _ _ _ Hr) as (o & p & Ho & Hp & Hanc).
    destruct (Hnone 0 ltac:(lia)) as (b & Hb & Hbd).
    apply ancestor_0 in Hb as [-> _].
    rewrite (resolve_step _ _ _ _ _ _ Ho), Hbd, Hp.
    apply IH; [| |lia].
    + unfold rootAt. by rewrite Hanc.
    + intros i Hi. destruct (Hnone (S i) ltac:(lia)) as (b & Hb & Hbd').
      exists b. split; [|done]. simpl in Hb. by rewrite Ho, Hp in Hb.
Qed.

Lemma insert_Return (h h' : Heap') s y :
  insert h s y = Return h' →
  ∃ o, h !! s = Some o ∧ has o y = false ∧ h' = <[s := inserted o y]> h.
Proof.
  intros Hrun. destruct (h !! s) as [o|] eqn:Ho.
  - destruct (has o y) eqn:Hhas.
    + unfold insert, deref in Hrun. rewrite Ho in Hrun. simpl in Hrun.
      by rewrite Hhas in Hrun.
    + exists o. split; [done|]. split; [done|].
      rewrite (insert_fresh h s o y Ho Hhas) in Hrun. by injection Hrun as <-.
  - unfold insert, deref in Hrun. by rewrite Ho in Hrun.
Qed.

Lemma offers_unfiltered (h : Heap') s o nm :
  h !! s = Some o → offers h s nm None = cim_get (scope o) nm.
Proof. intros Ho. unfold offers. rewrite Ho. by destruct (cim_get (scope o) nm). Qed.

(** A symbol inserted in scope [s] is what [resolve] answers, under any
    spelling of its name that differs only by case, from [s] and from every
    scope whose walk outward reaches [s] before a scope that declares the
    name. *)
Theorem insert_then_resolve (h h' : Heap') s y c k nm :
  insert h s y = Return h' →
  ancestor h c k = Some s →
  (∀ i, i < k → ∃ b, ancestor h c i = Some b ∧ declares h b nm = false) →
  toLowerCase nm = toLowerCase (symbolName y) →
  ∀ fuel, k < fuel → resolve fuel h' c nm None = Return (JSObject y).
Proof.
  intros Hins Hanc Hbefore Hname.
  destruct (insert_Return _ _ _ _ Hins) as (o & Ho & Hhas & ->).
  assert (∀ fuel, resolve (S fuel) (<[s := inserted o y]> h) s nm None
                  = Return (JSObject y)) as Hat.
  { intros fuel. rewrite (resolve_step _ s (inserted o y));
      [|by rewrite lookup_insert_eq].
    rewrite (offers_unfiltered _ s (inserted o y));
      [|by rewrite lookup_insert_eq].
    simpl. by rewrite cim_get_set. }
  revert c Hanc Hbefore. induction k as [|k IH]; intros c Hanc Hbefore fuel Hf.
  - apply ancestor_0 in Hanc as [-> _].
    destruct fuel as [|fuel]; [lia|]. apply Hat.
  - destruct (ancestor_S _ _ _ _ Hanc) as (oc & p & Hoc & Hp & Hanc').
    destruct fuel as [|fuel]; [lia|].
    destruct (decide (c = s)) as [->|Hcs]; [apply Hat|].
    destruct (Hbefore 0 ltac:(lia)) as (b & Hb & Hbd).
    apply ancestor_0 in Hb as [-> _].
    rewrite (resolve_step _ c oc); [|by rewrite lookup_insert_ne].
    rewrite (offers_unfiltered _ c oc); [|by rewrite lookup_insert_ne].
    rewrite (declares_false _ _ _ _ Hoc Hbd), Hp.
    apply IH; [done| |lia].
    intros i Hi. destruct (Hbefore (S i) ltac:(lia)) as (b & Hb & Hbd').
    exists b. split; [|done]. simpl in Hb. by rewrite Hoc, Hp in Hb.
Qed.

Lemma keyed_empty (h : Heap') :
  (∀ x o, h !! x = Some o → scope o = ∅) → keyed h.
Proof. intros Hempty x o k y Ho Hk. by rewrite (Hempty x o Ho) in Hk. Qed.

Lemma keyed_insert (h h' : Heap') s y :
  keyed h → insert h s y = Return h' → keyed h'.
Proof.
  intros Hkeyed Hins x ox k y0 Hox Hk.
  destruct (insert_Return _ _ _ _ Hins) as (o & Ho & _ & ->).
  destruct (decide (x = s)) as [->|Hx].
  - rewrite lookup_insert_eq in Hox. injection Hox as <-.
    simpl in Hk. unfold cim_set in Hk.
    destruct (decide (toLowerCase (symbolName y) = k)) as [<-|Hne].
    + rewrite lookup_insert_eq in Hk. by injection Hk as <-.
    + rewrite lookup_insert_ne in Hk by done. by apply (Hkeyed s o).
  - rewrite lookup_insert_ne in Hox by done. by apply (Hkeyed x ox).
Qed.



(** On keyed tables [insert(y)] throws exactly when the scope itself
    already holds a symbol whose name equals that of [y] up to case; the
    symbols of other scopes play no part. *)
Theorem insert_throws_iff_same_name (h : Heap') s o y :
  keyed h → h !! s = Some o →
  (insert h s y
   = Throw (PSIError y ("Symbol " ++ symbolName y ++ " is being redeclared"))
   ↔ ∃ k y0, scope o !! k = Some y0
       ∧ toLowerCase (symbolName y0) = toLowerCase (symbolName y))
  ∧ ((∃ h', insert h s y = Return h')
     ↔ ∀ k y0, scope o !! k = Some y0 →
         toLowerCase (symbolName y0) ≠ toLowerCase (symbolName y)).
Proof.
  intros Hkeyed Ho.
  assert (has o y = true
          ↔ ∃ k y0, scope o !! k = Some y0
              ∧ toLowerCase (symbolName y0) = toLowerCase (symbolName y))
    as Hhas.
  { unfold has. rewrite cim_has_get. unfold cim_get. split.
    - intros [y0 Hy0]. exists (toLowerCase (symbolName y)), y0.
      split; [done|]. symmetry. by apply (Hkeyed s o).
    - intros (k & y0 & Hk & Hname). exists y0.
      by rewrite <- Hname, <- (Hkeyed s o k y0 Ho Hk). }
  split.
  - rewrite <- Hhas. unfold insert, deref. rewrite Ho. simpl.
    by destruct (has o y).
  - split.
    + intros [h' Hrun] k y0 Hk Hname.
      destruct (insert_Return _ _ _ _ Hrun) as (o' & Ho' & Hfalse & _).
      rewrite Ho in Ho'. injection Ho' as <-.
      assert (has o y = true) by (apply Hhas; eauto). congruence.
    + intros Hnone. exists (<[s := inserted o y]> h).
      apply insert_fresh; [done|].
      destruct (has o y) eqn:Hh; [|done].
      destruct (proj1 Hhas eq_refl) as (k & y0 & Hk & Hname).
      by destruct (Hnone k y0 Hk).
Qed.

Lemma findScope_same_declarations (h h' : Heap') nm fuel : ∀ s,
  (∀ x, (λ o, (scope o, parent o)) <$> h' !! x
        = (λ o, (scope o, parent o)) <$> h !! x) →
  findScope fuel h' s nm = findScope fuel h s nm.
Proof.
  induction fuel as [|fuel IH]; intros s Hsame; [done|]. simpl.
  pose proof (Hsame s) as Hs. unfold deref.
  destruct (h' !! s) as [o'|], (h !! s) as [o|]; simpl in Hs; try done.
  injection Hs as Hsc Hpa. simpl. rewrite Hsc, Hpa.
  destruct (cim_get (scope o) nm); [done|].
  destruct (parent o); [|done]. by apply IH.
Qed.

Lemma changeValue_Return (h h' : Heap') s nm v fuel :
  changeValue fuel h s nm v = Return h' →
  ∃ d od, findScope fuel h s nm = Return (Some d) ∧ h !! d = Some od
    ∧ h' = <[d := set_value od (cim_set (value od) nm v)]> h.
Proof.
  unfold changeValue. intros Hrun.
  destruct (findScope fuel h s nm) as [[d|]| |]; simpl in Hrun; try done.
  unfold deref in Hrun. destruct (h !! d) as [od|] eqn:Hod; [|done].
  simpl in Hrun. injection Hrun as <-. eauto.
Qed.

(** Of two [changeValue] calls for one name from one scope the second
    wins: the heap is the one the second call alone would give. *)
Theorem changeValue_last_write_wins (h h1 : Heap') s nm v1 v2 fuel :
  changeValue fuel h s nm v1 = Return h1 →
  changeValue fuel h1 s nm v2 = changeValue fuel h s nm v2.
Proof.
  intros Hrun.
  destruct (changeValue_Return _ _ _ _ _ _ Hrun) as (d & od & Hfind & Hod & ->).
  unfold changeValue.
  rewrite (findScope_same_declarations h _ nm fuel s), Hfind.
  - simpl. unfold deref. rewrite lookup_insert_eq, Hod. simpl.
    f_equal. rewrite insert_insert_eq. f_equal.
    unfold set_value, cim_set. simpl. f_equal. apply insert_insert_eq.
  - intros x. destruct (decide (x = d)) as [->|Hx].
    + by rewrite lookup_insert_eq, Hod.
    + by rewrite lookup_insert_ne.
Qed.

(** [changeValue] writes nothing but the one value entry: every declaration
    lookup answers as before, and so does the local value lookup of every
    other name in every scope. *)
Theorem changeValue_frame (h h1 : Heap') s nm v fuel :
  changeValue fuel h s nm v = Return h1 →
  (∀ x nm' ty f, resolve f h1 x nm' ty = resolve f h x nm' ty)
  ∧ (∀ x nm', toLowerCase nm' ≠ toLowerCase nm →
       resolveValueThisScopeOnly h1 x nm' = resolveValueThisScopeOnly h x nm').
Proof.
  intros Hrun.
  destruct (changeValue_Return _ _ _ _ _ _ Hrun) as (d & od & _ & Hod & ->).
  split.
  - intros x nm' ty f. revert x. induction f as [|f IH]; intros x; [done|].
    simpl. unfold deref. destruct (decide (x = d)) as [->|Hx].
    + rewrite lookup_insert_eq, Hod. simpl.
      destruct (cim_get (scope od) nm') as [y|]; simpl.
      * destruct ty as [c|]; [|done].
        destruct (symbolInstanceOf y c); [done|].
        destruct (parent od); [apply IH|done].
      * destruct (parent od); [apply IH|done].
    + rewrite lookup_insert_ne by done.
      destruct (h !! x) as [o|]; simpl; [|done].
      destruct (cim_get (scope o) nm') as [y|]; simpl.
      * destruct ty as [c|]; [|done].
        destruct (symbolInstanceOf y c); [done|].
        destruct (parent o); [apply IH|done].
      * destruct (parent o); [apply IH|done].
  - intros x nm' Hne. unfold resolveValueThisScopeOnly, deref.
    destruct (decide (x = d)) as [->|Hx].
    + rewrite lookup_insert_eq, Hod. simpl. unfold cim_get, cim_set.
      by rewrite lookup_insert_ne.
    + by rewrite lookup_insert_ne.
Qed.


(** A child scope registered with [children.add] is what [children.get]
    answers under any spelling of its name that differs only by case (so a
    child added later under such a spelling takes the place of the earlier
    one); the answers for all other names are unchanged. *)
Theorem children_add_then_get (h : Heap') this child o c :
  h !! this = Some o → h !! child = Some c →
  ∃ h', children_add h this child = Return h'
    ∧ (∀ nm, toLowerCase nm = toLowerCase (name c) →
         children_get h' this nm = Return (JSObject child))
    ∧ (∀ nm, toLowerCase nm ≠ toLowerCase (name c) →
         children_get h' this nm = children_get h this nm)
    ∧ (∀ x, x ≠ this → h' !! x = h !! x).
Proof.
  intros Ho Hc. unfold children_add, deref. rewrite Hc, Ho. simpl.
  eexists. split; [reflexivity|]. unfold children_get, deref.
  rewrite lookup_insert_eq, Ho. simpl. split; [|split].
  - intros nm Hnm. by rewrite (cim_get_set _ _ _ _ (eq_sym Hnm)).
  - intros nm Hnm. unfold cim_get, cim_set. by rewrite lookup_insert_ne.
  - intros x Hx. by rewrite lookup_insert_ne.
Qed.

End ScopeMore.

(** ** The parser: token consumption *)

Section ParserMore.
Import Lexer Parser.

Context {TokenValue : Type}.
Context (valueToString : TokenValue → string).

Abbreviation PState := (@State TokenValue).
Abbreviation PM := (@M TokenValue).

Lemma advanceBy_add (n m : nat) : ∀ st : PState,
  advanceBy (n + m) st = advanceBy m (advanceBy n st).
Proof. induction n as [|n IH]; intros st; simpl; [done|apply IH]. Qed.

Lemma advances_weaken {A} (lo lo' : nat) (m : PM A) :
  lo' ≤ lo → Advances lo m → Advances lo' m.
Proof.
  intros Hle Hm st a st' Hrun. destruct (Hm st a st' Hrun) as (n & Hn & ->).
  exists n. split; [lia|done].
Qed.

Lemma advances_bind {A B} (lo1 lo2 : nat) (m : PM A) (k : A → PM B) :
  Advances lo1 m → (∀ a, Advances lo2 (k a)) → Advances (lo1 + lo2) (m ≫= k).
Proof.
  intros Hm Hk st b st' Hrun. unfold mbind, M_bind in Hrun.
  destruct (m st) as [[a st1]| |] eqn:Hm1; try done.
  destruct (Hm st a st1 Hm1) as (n1 & Hn1 & ->).
  destruct (Hk a _ b st' Hrun) as (n2 & Hn2 & ->).
  exists (n1 + n2). split; [lia|]. by rewrite advanceBy_add.
Qed.

Lemma forward_bind {A B} (m : PM A) (k : A → PM B) :
  Advances 0 m → (∀ a, Advances 0 (k a)) → Advances 0 (m ≫= k).
Proof. apply (advances_bind 0 0). Qed.

Lemma forward_ret {A} (a : A) : Advances 0 (mret a : PM A).
Proof. intros st a' st' [= <- <-]. exists 0. done. Qed.

Lemma forward_throw {A} lo (e : Exn) : Advances lo (throw e : PM A).
Proof. intros st a st' Hrun. done. Qed.

Lemma forward_stuck {A} lo : Advances lo (stuck : PM A).
Proof. intros st a st' Hrun. done. Qed.

Lemma forward_get_currentToken : Advances 0 (get_currentToken : PM _).
Proof. intros st a st' [= <- <-]. exists 0. done. Qed.

Lemma forward_get_previousToken : Advances 0 (get_previousToken : PM _).
Proof. intros st a st' [= <- <-]. exists 0. done. Qed.

Lemma forward_peek : Advances 0 (peek : PM _).
Proof. intros st a st' [= <- <-]. exists 0. done. Qed.

Lemma forward_provider : Advances 0 (previousTokenEndLocationProvider : PM _).
Proof.
  intros st a st'. unfold previousTokenEndLocationProvider.
  destruct (previousToken st); [|done]. intros [= <- <-]. exists 0. done.
Qed.

(** A successful [this.currentToken = this.eat(type, ...)] moves the
    parser exactly one token further. *)
Lemma advance_Return (type : TokenKind) message previousTokenThrow
    (st st' : PState) (u : unit) :
  advance type message previousTokenThrow st = Return (u, st') →
  kind (currentToken st) = type ∧ st' = next st.
Proof.
  unfold advance, mbind, M_bind, eat, instanceOf, next.
  case_bool_decide as Hk.
  - destruct (getNextToken (lexer st)) as [t lx]. simpl. intros [= <-]. done.
  - unfold mbind, M_bind, throw.
    destruct previousTokenThrow; [|done].
    unfold previousTokenEndLocationProvider. by destruct (previousToken st).
Qed.

Lemma advances_advance type message previousTokenThrow :
  Advances 1 (advance type message previousTokenThrow : PM _).
Proof.
  intros st u st' Hrun. apply advance_Return in Hrun as [_ ->].
  exists 1. done.
Qed.

Lemma forward_advance type message previousTokenThrow :
  Advances 0 (advance type message previousTokenThrow : PM _).
Proof. apply (advances_weaken 1); [lia|apply advances_advance]. Qed.

Lemma advances_variable : Advances 1 (variable : PM _).
Proof.
  unfold variable.
  apply (advances_bind 0 1); [apply forward_get_currentToken|]. intros cur.
  apply (advances_bind 1 0); [apply advances_advance|]. intros _.
  apply forward_ret.
Qed.

Lemma forward_variable : Advances 0 (variable : PM _).
Proof. apply (advances_weaken 1); [lia|apply advances_variable]. Qed.

Lemma forward_empty : Advances 0 (empty : PM _).
Proof.
  unfold empty. apply forward_bind; [apply forward_get_currentToken|].
  intros. apply forward_ret.
Qed.

Lemma forward_returnIf objs r : Advances 0 (returnIf objs r : PM _).
Proof.
  unfold returnIf. destruct (readIf (length objs) objs r);
    [apply forward_ret|apply forward_stuck].
Qed.

Lemma forward_rightOperand op (rec : PM AST) mk :
  Advances 0 rec → Advances 0 (rightOperand op rec mk).
Proof.
  intros Hrec. unfold rightOperand.
  apply forward_bind; [apply forward_advance|]. intros _.
  apply forward_bind; [done|]. intros. apply forward_ret.
Qed.

Ltac forward_step :=
  first
    [ assumption
    | apply forward_ret | apply forward_throw | apply forward_stuck
    | apply forward_get_currentToken | apply forward_get_previousToken
    | apply forward_peek | apply forward_advance | apply forward_provider
    | apply forward_variable | apply forward_empty | apply forward_returnIf
    | apply forward_rightOperand
    | apply forward_bind; [|intros ?]
    | match goal with
      | |- Advances 0 (if ?b then _ else _) => destruct b
      | |- Advances 0 (match ?x with _ => _ end) => destruct x
      | H : ∀ _, Advances 0 (?f _) |- Advances 0 (?f _) => apply H
      end ].
Ltac forward := repeat forward_step.

Lemma expressions_forward (fuel : nat) :
  Advances 0 (expression fuel : PM _) ∧ Advances 0 (term fuel : PM _)
  ∧ Advances 0 (comparison fuel : PM _) ∧ Advances 0 (factor fuel : PM _).
Proof.
  induction fuel as [|fuel (IHe & IHt & IHc & IHf)].
  - repeat split; apply forward_stuck.
  - repeat split; simpl; forward.
Qed.

Lemma expressions_consume (fuel : nat) :
  Advances 1 (expression fuel : PM _) ∧ Advances 1 (term fuel : PM _)
  ∧ Advances 1 (comparison fuel : PM _) ∧ Advances 1 (factor fuel : PM _).
Proof.
  induction fuel as [|fuel (IHe & IHt & IHc & IHf)].
  - repeat split; apply forward_stuck.
  - destruct (expressions_forward fuel) as (He & Ht & Hc & Hf).
    split; [|split; [|split]]; simpl.
    + apply (advances_bind 1 0); [done|]. intros. forward.
    + apply (advances_bind 1 0); [done|]. intros. forward.
    + apply (advances_bind 1 0); [done|]. intros. forward.
    + apply (advances_bind 0 1); [apply forward_get_currentToken|].
      intros saved.
      repeat match goal with
             | |- Advances 1 (if ?b then _ else _) => destruct b
             end;
        (apply (advances_bind 1 0);
         [first [apply advances_advance|apply advances_variable]
         |intros; forward]).
Qed.

Lemma forward_assignmentExpression fuel :
  Advances 0 (assignmentExpression fuel : PM _).
Proof.
  destruct (expressions_forward fuel) as (He & _).
  unfold assignmentExpression. forward.
Qed.

Lemma forward_call_args fuel : ∀ args,
  Advances 0 (call_args fuel args : PM _).
Proof.
  induction fuel as [|fuel IH]; intros args; [apply forward_stuck|].
  destruct (expressions_forward fuel) as (He & _). simpl. forward.
Qed.

Lemma forward_call fuel : Advances 0 (call fuel : PM _).
Proof.
  destruct (expressions_forward fuel) as (He & _).
  pose proof (forward_call_args fuel) as Hargs.
  unfold call. forward.
Qed.

Ltac forward_more :=
  repeat first
    [ apply forward_assignmentExpression | apply forward_call
    | match goal with
      | H : ∀ _ _, Advances 0 (?f _ _) |- Advances 0 (?f _ _) => apply H
      end
    | forward_step ].

Lemma statements_forward (fuel : nat) :
  Advances 0 (statement fuel : PM _)
  ∧ Advances 0 (statementList fuel : PM _)
  ∧ (∀ acc, Advances 0 (statementList_loop fuel acc : PM _))
  ∧ Advances 0 (compoundStatement fuel : PM _)
  ∧ Advances 0 (if_ fuel : PM _)
  ∧ Advances 0 (ifStatement fuel : PM _)
  ∧ (∀ objs cur, Advances 0 (ifStatement_loop fuel objs cur : PM _))
  ∧ Advances 0 (for_ fuel : PM _)
  ∧ Advances 0 (while fuel : PM _)
  ∧ Advances 0 (repeat fuel : PM _).
Proof.
  induction fuel
    as [|fuel (IHs & IHl & IHlo & IHc & IHi & IHis & IHil & IHf & IHw & IHr)].
  - repeat split; intros; apply forward_stuck.
  - destruct (expressions_forward fuel) as (He & _).
    repeat split; intros; simpl; forward_more.
Qed.

Lemma forward_type : Advances 0 (type valueToString : PM _).
Proof. unfold type. forward. Qed.

Lemma forward_variableDeclaration_ids fuel : ∀ ids,
  Advances 0 (variableDeclaration_ids fuel ids : PM _).
Proof.
  induction fuel as [|fuel IH]; intros ids; [apply forward_stuck|].
  simpl. forward.
Qed.

Lemma forward_variableDeclaration fuel :
  Advances 0 (variableDeclaration valueToString fuel : PM _).
Proof.
  pose proof (forward_variableDeclaration_ids fuel) as Hids.
  pose proof forward_type as Hty.
  unfold variableDeclaration. forward.
Qed.

Lemma forward_procedureParameters_more fuel : ∀ args,
  Advances 0 (procedureParameters_more valueToString fuel args : PM _).
Proof.
  induction fuel as [|fuel IH]; intros args; [apply forward_stuck|].
  pose proof (forward_variableDeclaration fuel) as Hd. simpl. forward.
Qed.

Lemma forward_procedureParameters fuel :
  Advances 0 (procedureParameters valueToString fuel : PM _).
Proof.
  pose proof (forward_variableDeclaration fuel) as Hd.
  pose proof (forward_procedureParameters_more fuel) as Hm.
  unfold procedureParameters. forward.
Qed.

Lemma forward_declarations_variables fuel : ∀ decls,
  Advances 0 (declarations_variables valueToString fuel decls : PM _).
Proof.
  induction fuel as [|fuel IH]; intros decls; [apply forward_stuck|].
  pose proof (forward_variableDeclaration fuel) as Hd. simpl. forward.
Qed.

Lemma blocks_forward (fuel : nat) :
  Advances 0 (block valueToString fuel : PM _)
  ∧ (∀ decls, Advances 0 (declarations valueToString fuel decls : PM _))
  ∧ Advances 0 (procedureDeclaration valueToString fuel : PM _).
Proof.
  induction fuel as [|fuel (IHb & IHd & IHp)].
  - repeat split; intros; apply forward_stuck.
  - destruct (statements_forward fuel) as (_ & _ & _ & Hc & _).
    pose proof (forward_declarations_variables fuel) as Hv.
    pose proof (forward_procedureParameters fuel) as Hpp.
    repeat split; intros; simpl; forward.
Qed.

Lemma forward_program fuel : Advances 0 (program valueToString fuel : PM _).
Proof.
  destruct (blocks_forward fuel) as (Hb & _). unfold program. forward.
Qed.

Lemma forward_run fuel : Advances 0 (run valueToString fuel : PM _).
Proof. pose proof (forward_program fuel) as Hp. unfold run. forward. Qed.

Lemma advanceBy_lexer (n : nat) : ∀ st : PState,
  pending (lexer (advanceBy n st)) = drop n (pending (lexer st))
  ∧ eof (lexer (advanceBy n st)) = eof (lexer st).
Proof.
  induction n as [|n IH]; intros st; simpl; [by rewrite drop_0|].
  destruct (IH (next st)) as [-> ->]. unfold next, getNextToken.
  destruct (pending (lexer st)) as [|t rest] eqn:Hpending; simpl; [|done].
  by rewrite Hpending, drop_nil.
Qed.

Lemma advanceBy_previous (n : nat) : ∀ st : PState,
  is_Some (previousToken st) → is_Some (previousToken (advanceBy n st)).
Proof.
  induction n as [|n IH]; intros st Hprev; simpl; [done|].
  apply IH. unfold next. destruct (getNextToken (lexer st)). simpl. eauto.
Qed.

Lemma bind_Return {A B} (m : PM A) (k : A → PM B) st b st' :
  (m ≫= k) st = Return (b, st') →
  ∃ a st1, m st = Return (a, st1) ∧ k a st1 = Return (b, st').
Proof.
  unfold mbind, M_bind. destruct (m st) as [[a st1]| |]; try done. eauto.
Qed.

(** An expression that parses has consumed at least one token; the parser
    has only moved forward, so what is still pending in the lexer is the
    old pending input without its first tokens.  The same holds for the
    rules below [expression]. *)
Theorem expression_consumes_tokens (fuel : nat) (st st' : PState) (a : AST) :
  expression fuel st = Return (a, st') ∨ term fuel st = Return (a, st')
  ∨ comparison fuel st = Return (a, st') ∨ factor fuel st = Return (a, st') →
  ∃ n, 1 ≤ n ∧ st' = advanceBy n st
    ∧ pending (lexer st') = drop n (pending (lexer st))
    ∧ is_Some (previousToken st').
Proof.
  intros Hrun. destruct (expressions_consume fuel) as (He & Ht & Hc & Hf).
  assert (∃ n, 1 ≤ n ∧ st' = advanceBy n st) as (n & Hn & ->).
  { destruct Hrun as [H|[H|[H|H]]]; eauto. }
  exists n. split; [done|]. split; [done|].
  split; [apply advanceBy_lexer|].
  destruct n as [|n]; [lia|]. simpl. apply advanceBy_previous.
  unfold next. destruct (getNextToken (lexer st)). simpl. eauto.
Qed.

(** A statement, a statement list, a compound statement, an if chain and
    the three loops, when they parse, have only moved the parser forward
    through the input, token by token. *)
Theorem statements_only_advance (fuel : nat) (st st' : PState) :
  (∀ a, statement fuel st = Return (a, st') ∨ compoundStatement fuel st = Return (a, st')
        ∨ ifStatement fuel st = Return (a, st') ∨ for_ fuel st = Return (a, st')
        ∨ while fuel st = Return (a, st') ∨ repeat fuel st = Return (a, st') →
        ∃ n, st' = advanceBy n st
          ∧ pending (lexer st') = drop n (pending (lexer st)))
  ∧ (∀ l, statementList fuel st = Return (l, st') →
          ∃ n, st' = advanceBy n st
            ∧ pending (lexer st') = drop n (pending (lexer st))).
Proof.
  destruct (statements_forward fuel)
    as (Hs & Hl & _ & Hc & _ & Hi & _ & Hf & Hw & Hr).
  split.
  - intros a Hrun.
    assert (∃ n, 0 ≤ n ∧ st' = advanceBy n st) as (n & _ & ->).
    { destruct Hrun as [H|[H|[H|[H|[H|H]]]]]; eauto. }
    exists n. split; [done|apply advanceBy_lexer].
  - intros l Hrun. destruct (Hl _ _ _ Hrun) as (n & _ & ->).
    exists n. split; [done|apply advanceBy_lexer].
Qed.

(** A successful [run()] started at the [program] keyword, returns a
    [Program] node positioned at that keyword, has only moved forward
    through the input, and the token it consumed last is the end-of-input
    token. *)
Theorem run_result (fuel : nat) (st st' : PState) (node : AST) :
  run valueToString fuel st = Return (node, st') →
  kind (currentToken st) = ProgramToken
  ∧ (∃ name blockNode,
       node = ProgramAST (tokenSpan (currentToken st)) name blockNode)
  ∧ (∃ n, st' = advanceBy n st
       ∧ pending (lexer st') = drop n (pending (lexer st)))
  ∧ ∃ last, previousToken st' = Some last ∧ kind last = EofToken.
Proof.
  intros Hrun.
  destruct (forward_run fuel _ _ _ Hrun) as (n & _ & Hst').
  unfold run in Hrun.
  apply bind_Return in Hrun as (node' & st1 & Hprog & Hrest).
  apply bind_Return in Hrest as (u & st2 & Heof & Hret).
  injection Hret as <- <-.
  apply advance_Return in Heof as [Hkind Hnext].
  unfold program in Hprog.
  apply bind_Return in Hprog as (tok & st3 & Hget & Hprog).
  injection Hget as <- <-.
  apply bind_Return in Hprog as (u' & st4 & Hadv & Hprog).
  apply advance_Return in Hadv as [Hk _].
  apply bind_Return in Hprog as (nameAST & st5 & _ & Hprog).
  apply bind_Return in Hprog as (u2 & st6 & _ & Hprog).
  apply bind_Return in Hprog as (blockNode & st7 & _ & Hprog).
  apply bind_Return in Hprog as (u3 & st8 & _ & Hprog).
  injection Hprog as <- _.
  split; [done|]. split; [eauto|]. split.
  - exists n. split; [done|]. rewrite Hst'. apply advanceBy_lexer.
  - exists (currentToken st1). split; [|done]. rewrite Hnext.
    unfold next. by destruct (getNextToken (lexer st1)).
Qed.

(** A token with which no factor can start is refused where an operand is
    expected: [factor], and [expression] through it, throw at that token,
    naming its class and the identifier class they fell back to. *)
Theorem factor_rejects (fuel : nat) (st : PState) :
  kind (currentToken st) ∉ IdToken :: factorStarts →
  factor (S fuel) st
  = Throw (PSIError (tokenSpan (currentToken st))
             ("Expected type " ++ kindName (kind (currentToken st))
              ++ " to be IdToken"))
  ∧ expression (4 + fuel) st
    = Throw (PSIError (tokenSpan (currentToken st))
               ("Expected type " ++ kindName (kind (currentToken st))
                ++ " to be IdToken")).
Proof.
  intros Hkind. destruct st as [[k v s e] prev lx]. simpl in Hkind.
  destruct k;
    first [ exfalso; apply Hkind; unfold factorStarts; solve [repeat constructor]
          | split; vm_compute; reflexivity ].
Qed.

(** An identifier that is followed neither by an opening parenthesis nor by
    the assignment operator is no statement: [statement] throws "Invalid
    statement", located at the end of the identifier, one column back. *)
Theorem statement_invalid (fuel : nat) (st : PState) :
  kind (currentToken st) = IdToken →
  kind (peekNextToken (lexer st)) ∉ [OpeningParenthesisToken; AssignToken] →
  statement (S fuel) st
  = Throw (PSIError (afterPrevious (currentToken st)) "Invalid statement").
Proof.
  intros Hid Hnext.
  destruct st as [[k v s [el ec]] prev [pend [ke ve se ee]]].
  simpl in Hid. subst k.
  destruct pend as [|[k2 v2 s2 e2] rest]; simpl in Hnext.
  - destruct ke;
      first [ exfalso; apply Hnext; solve [repeat constructor]
            | vm_compute; reflexivity ].
  - destruct k2;
      first [ exfalso; apply Hnext; solve [repeat constructor]
            | vm_compute; reflexivity ].
Qed.

(** [type()] accepts exactly the four type keywords, each giving its type
    node at the keyword and moving one token on; at any other token it
    throws "Unknown data type" followed by the token's value, located at
    that token. *)
Theorem type_outcome (st : PState) :
  (∀ k mk, (k, mk) ∈ typeKeywords → kind (currentToken st) = k →
     type valueToString st = Return (mk (tokenSpan (currentToken st)), next st))
  ∧ (kind (currentToken st)
       ∉ [IntegerToken; RealToken; BooleanToken; CharToken] →
     type valueToString st
     = Throw (PSIError (tokenSpan (currentToken st))
                ("Unknown data type " ++ valueToString (value (currentToken st))))).
Proof.
  destruct st as [[k v s e] prev [pend eofT]]. split.
  - intros k' mk Hin Hk. simpl in Hk. subst k'. unfold typeKeywords in Hin.
    repeat (apply elem_of_cons in Hin as [[= -> ->]|Hin];
            [destruct pend; reflexivity|]).
    by apply elem_of_nil in Hin.
  - intros Hkind. simpl in Hkind.
    destruct k;
      first [ exfalso; apply Hkind; solve [repeat constructor]
            | reflexivity ].
Qed.

Lemma bind_run {A B} (m : PM A) (k : A → PM B) st a st1 :
  m st = Return (a, st1) → (m ≫= k) st = k a st1.
Proof. intros Hm. unfold mbind, M_bind. by rewrite Hm. Qed.

Lemma bind_throw {A B} (m : PM A) (k : A → PM B) st e :
  m st = Throw e → (m ≫= k) st = Throw e.
Proof. intros Hm. unfold mbind, M_bind. by rewrite Hm. Qed.

Lemma advance_matches (type : TokenKind) message previousTokenThrow (st : PState) :
  kind (currentToken st) = type →
  advance type message previousTokenThrow st = Return (tt, next st).
Proof.
  intros Hk. unfold advance, mbind, M_bind, eat, instanceOf, next.
  rewrite (bool_decide_eq_true_2 _ Hk).
  by destruct (getNextToken (lexer st)).
Qed.

Lemma advance_missing (type : TokenKind) (c : ascii) (message : string)
    (st : PState) (p : Lexer.Token TokenValue) :
  kind (currentToken st) ≠ type → previousToken st = Some p →
  advance type (Some (String c message)) true st
  = Throw (PSIError (afterPrevious p) (String c message)).
Proof.
  intros Hk Hp. unfold advance, mbind, M_bind, eat, instanceOf.
  rewrite (bool_decide_eq_false_2 _ Hk).
  unfold mbind, M_bind, previousTokenEndLocationProvider, throw.
  by rewrite Hp.
Qed.

Lemma next_previous (st : PState) :
  previousToken (next st) = Some (currentToken st).
Proof. unfold next. by destruct (getNextToken (lexer st)). Qed.

Lemma previous_after (n : nat) (st : PState) :
  is_Some (previousToken (advanceBy n (next st))).
Proof. apply advanceBy_previous. rewrite next_previous. eauto. Qed.

(** A keyword missing after a construct that parsed is reported at the end
    of the token consumed last, one column back: [do] after the condition
    of [while], [then] after the condition of [if], [until] after the
    statements of [repeat], and [to] or [downto] after the assignment of
    [for]. *)
Theorem missing_keyword_after_previous_token (fuel : nat) (st st1 : PState) :
  (∀ c, kind (currentToken st) = WhileToken →
     expression fuel (next st) = Return (c, st1) →
     kind (currentToken st1) ≠ DoToken →
     ∃ p, previousToken st1 = Some p
       ∧ while (S fuel) st
         = Throw (PSIError (afterPrevious p) "Expected do after while condition"))
  ∧ (∀ c, kind (currentToken st) = IfToken →
     expression fuel (next st) = Return (c, st1) →
     kind (currentToken st1) ≠ ThenToken →
     ∃ p, previousToken st1 = Some p
       ∧ ifStatement (S (S fuel)) st
         = Throw (PSIError (afterPrevious p) "Expected then after if condition"))
  ∧ (∀ l, kind (currentToken st) = RepeatToken →
     statementList fuel (next st) = Return (l, st1) →
     kind (currentToken st1) ≠ UntilToken →
     ∃ p, previousToken st1 = Some p
       ∧ repeat (S fuel) st
         = Throw (PSIError (afterPrevious p)
                    "Expected until at the end of a repeat loop"))
  ∧ (∀ a, kind (currentToken st) = ForToken →
     assignmentExpression fuel (next st) = Return (a, st1) →
     kind (currentToken st1) ∉ [ToToken; DownToToken] →
     ∃ p, previousToken st1 = Some p
       ∧ for_ (S fuel) st
         = Throw (PSIError (afterPrevious p) "Expected to/down to after for")).
Proof.
  split; [|split; [|split]].
  - intros c Hk Hexpr Hdo.
    destruct (proj1 (expressions_forward fuel) _ _ _ Hexpr) as (n & _ & Hst1).
    destruct (previous_after n st) as [p Hp]. rewrite <- Hst1 in Hp.
    exists p. split; [done|]. simpl.
    rewrite (bind_run get_currentToken _ st (currentToken st) st eq_refl).
    rewrite (bind_run _ _ _ _ _ (advance_matches _ None false st Hk)).
    rewrite (bind_run _ _ _ _ _ Hexpr).
    by rewrite (bind_throw _ _ _ _ (advance_missing _ _ _ st1 p Hdo Hp)).
  - intros c Hk Hexpr Hthen.
    destruct (proj1 (expressions_forward fuel) _ _ _ Hexpr) as (n & _ & Hst1).
    destruct (previous_after n st) as [p Hp]. rewrite <- Hst1 in Hp.
    exists p. split; [done|].
    assert (if_ (S fuel) st
            = Throw (PSIError (afterPrevious p)
                       "Expected then after if condition")) as Hif.
    { simpl.
      rewrite (bind_run get_currentToken _ st (currentToken st) st eq_refl).
      rewrite (bind_run _ _ _ _ _ (advance_matches _ None false st Hk)).
      rewrite (bind_run _ _ _ _ _ Hexpr).
      by rewrite (bind_throw _ _ _ _ (advance_missing _ _ _ st1 p Hthen Hp)). }
    change (ifStatement (S (S fuel)) st)
      with ((firstIf ← if_ (S fuel);
             objs ← ifStatement_loop (S fuel) [firstIf] 0;
             returnIf objs 0) st).
    by rewrite (bind_throw _ _ _ _ Hif).
  - intros l Hk Hlist Huntil.
    destruct (proj1 (proj2 (statements_forward fuel)) _ _ _ Hlist)
      as (n & _ & Hst1).
    destruct (previous_after n st) as [p Hp]. rewrite <- Hst1 in Hp.
    exists p. split; [done|]. simpl.
    rewrite (bind_run get_currentToken _ st (currentToken st) st eq_refl).
    rewrite (bind_run _ _ _ _ _ (advance_matches _ None false st Hk)).
    rewrite (bind_run _ _ _ _ _ Hlist).
    by rewrite (bind_throw _ _ _ _ (advance_missing _ _ _ st1 p Huntil Hp)).
  - intros a Hk Hassign Hdir.
    destruct (forward_assignmentExpression fuel _ _ _ Hassign) as (n & _ & Hst1).
    destruct (previous_after n st) as [p Hp]. rewrite <- Hst1 in Hp.
    exists p. split; [done|]. simpl.
    rewrite (bind_run get_currentToken _ st (currentToken st) st eq_refl).
    rewrite (bind_run _ _ _ _ _ (advance_matches _ None false st Hk)).
    rewrite (bind_run _ _ _ _ _ Hassign).
    rewrite (bind_run get_currentToken _ st1 (currentToken st1) st1 eq_refl).
    assert (kind (currentToken st1) ≠ ToToken) as Hto
        by (intros Heq; apply Hdir; rewrite Heq; left).
    assert (kind (currentToken st1) ≠ DownToToken) as Hdown
        by (intros Heq; apply Hdir; rewrite Heq; right; left).
    unfold instanceOf.
    rewrite (bool_decide_eq_false_2 _ Hto), (bool_decide_eq_false_2 _ Hdown).
    unfold mbind, M_bind, previousTokenEndLocationProvider, throw.
    by rewrite Hp.
Qed.

Lemma statementList_loop_prefix (fuel : nat) : ∀ acc (st st' : PState) l,
  statementList_loop fuel acc st = Return (l, st') → ∃ more, l = acc ++ more.
Proof.
  induction fuel as [|fuel IH]; intros acc st st' l Hrun; [done|].
  simpl in Hrun.
  apply bind_Return in Hrun as (cur & st0 & [= <- <-] & Hrun).
  destruct (instanceOf (currentToken st) SemiToken).
  - apply bind_Return in Hrun as (u & st1 & _ & Hrun).
    apply bind_Return in Hrun as (s & st2 & _ & Hrun).
    destruct (IH _ _ _ _ Hrun) as (more & ->).
    exists (s :: more). by rewrite <- app_assoc.
  - injection Hrun as <- _. exists []. by rewrite app_nil_r.
Qed.

(** A statement list that parses is never empty: its first element is what
    [statement] returns at the start of the list.  Hence every [Compound]
    node holds at least one statement; it is positioned at its [begin]
    and the token consumed last is its [end]. *)
Theorem statementList_starts_with_statement (fuel : nat) (st st' : PState) :
  (∀ l, statementList (S fuel) st = Return (l, st') →
     ∃ first rest st1, statement fuel st = Return (first, st1)
       ∧ l = first :: rest)
  ∧ (∀ node, compoundStatement (S (S fuel)) st = Return (node, st') →
     ∃ first rest, node = CompoundAST (tokenSpan (currentToken st)) (first :: rest)
       ∧ kind (currentToken st) = BeginToken
       ∧ ∃ last, previousToken st' = Some last ∧ kind last = EndToken).
Proof.
  assert (∀ f (s s' : PState) l, statementList (S f) s = Return (l, s') →
            ∃ first rest st1, statement f s = Return (first, st1)
              ∧ l = first :: rest) as Hlist.
  { intros f s s' l Hrun. simpl in Hrun.
    apply bind_Return in Hrun as (stmts & st2 & Hloop & Hrun).
    apply bind_Return in Hloop as (first & st1 & Hfirst & Hloop).
    apply statementList_loop_prefix in Hloop as (more & ->).
    apply bind_Return in Hrun as (cur & st3 & [= <- <-] & Hrun).
    apply bind_Return in Hrun as (prev & st4 & [= <- <-] & Hrun).
    exists first, more, st1. split; [done|].
    destruct (negb _ && negb _).
    - apply bind_Return in Hrun as (loc & st5 & _ & Hrun). done.
    - by injection Hrun as <- _. }
  split; [apply Hlist|].
  intros node Hrun. simpl in Hrun.
  apply bind_Return in Hrun as (tok & st0 & [= <- <-] & Hrun).
  apply bind_Return in Hrun as (u & st1 & Hbegin & Hrun).
  apply advance_Return in Hbegin as [Hk ->].
  apply bind_Return in Hrun as (stmts & st2 & Hstmts & Hrun).
  apply bind_Return in Hrun as (u' & st3 & Hend & Hrun).
  apply advance_Return in Hend as [Hkend ->].
  injection Hrun as <- <-.
  destruct (Hlist _ _ _ _ Hstmts) as (first & rest & _ & _ & ->).
  exists first, rest. split; [done|]. split; [done|].
  exists (currentToken st2). split; [apply next_previous|done].
Qed.



Context (val : nat → TokenValue) (from to : nat → Position).

Abbreviation lit i := (IntegerConstantAST (spanAt from to i) (val i)).
Abbreviation name_ i := (VariableAST (spanAt from to i) (val i)).
Abbreviation assign_ i :=
  (AssignmentAST (spanAt from to (S i)) (name_ i) (lit (S (S i)))).
Abbreviation parsing kinds := (newParser (stream val from to kinds)).

(** Parentheses group and leave no node of their own: the tokens of
    [( a op1 b ) op2 c] parse to [op2(op1(a, b), c)] for any two binary
    operators.  When the closing parenthesis is missing the error is
    located at the token found in its place. *)
Theorem parentheses_group (op1 op2 : BinaryOperator) (fuel : nat) :
  let kinds := [OpeningParenthesisToken; IntegerConstToken; operatorToken op1;
                IntegerConstToken; ClosingParenthesisToken; operatorToken op2;
                IntegerConstToken] in
  (∃ st', expression (12 + fuel) (parsing kinds)
          = Return (operatorNode op2 (spanAt from to 5)
                      (operatorNode op1 (spanAt from to 2) (lit 1) (lit 3))
                      (lit 6),
                    st')
          ∧ atEnd val from to kinds st')
  ∧ expression (12 + fuel)
      (parsing [OpeningParenthesisToken; IntegerConstToken; operatorToken op1;
                IntegerConstToken])
    = Throw (PSIError (spanAt from to 4)
               "Expected type EofToken to be ClosingParenthesisToken").
Proof.
  intros kinds. subst kinds.
  destruct op1, op2;
    (split; [eexists; split; [vm_compute; reflexivity|split; reflexivity]
            |vm_compute; reflexivity]).
Qed.

(** A unary operator applies to the factor that follows it and to nothing
    more: [u a op b] parses to [op(u(a), b)] and [a op u b] to
    [op(a, u(b))], for every unary [u] and binary [op]. *)
Theorem unary_binds_tightest (u : UnaryOperator) (op : BinaryOperator)
    (fuel : nat) :
  let kinds1 := [unaryToken u; IntegerConstToken; operatorToken op;
                 IntegerConstToken] in
  let kinds2 := [IntegerConstToken; operatorToken op; unaryToken u;
                 IntegerConstToken] in
  (∃ st', expression (10 + fuel) (parsing kinds1)
          = Return (operatorNode op (spanAt from to 2)
                      (unaryNode u (spanAt from to 0) (lit 1)) (lit 3), st')
          ∧ atEnd val from to kinds1 st')
  ∧ (∃ st', expression (10 + fuel) (parsing kinds2)
            = Return (operatorNode op (spanAt from to 1) (lit 0)
                        (unaryNode u (spanAt from to 2) (lit 3)), st')
            ∧ atEnd val from to kinds2 st').
Proof.
  intros kinds1 kinds2. subst kinds1 kinds2.
  destruct u, op;
    (split; eexists; (split; [vm_compute; reflexivity|split; reflexivity])).
Qed.

(** An [else] belongs to the nearest [if]: in
    [if a then if b then s1 else s2] the inner [If] gets [s2] as its next
    alternative and the outer [If] has none. *)
Theorem else_joins_nearest_if (fuel : nat) :
  let kinds := [IfToken; IdToken; ThenToken;
                IfToken; IdToken; ThenToken;
                IdToken; AssignToken; IntegerConstToken;
                ElseToken;
                IdToken; AssignToken; IntegerConstToken] in
  ∃ st',
    statement (14 + fuel) (parsing kinds)
    = Return (IfAST (spanAt from to 0) (name_ 1)
                (IfAST (spanAt from to 3) (name_ 4) (assign_ 6)
                   (Some (assign_ 10)))
                None,
              st')
    ∧ atEnd val from to kinds st'.
Proof.
  intros kinds. subst kinds.
  eexists. split; [vm_compute; reflexivity|split; reflexivity].
Qed.

End ParserMore.

(** *** The further properties on the sample scopes *)

Section ScopeMoreExamples.
Import SymbolScope.

Lemma scopes0_empty_tables :
  ∀ x o, scopes0 !! x = Some o → scope o = ∅.
Proof.
  intros x o Hx. unfold scopes0 in Hx.
  apply lookup_insert_Some in Hx as [[_ <-]|[_ Hx]]; [done|].
  by apply lookup_singleton_Some in Hx as [_ <-].
Qed.

Lemma scopes1_keyed : keyed scopes1.
Proof.
  apply (keyed_insert scopes0 scopes1 0 symbolX); [|exact scopes1_built].
  apply keyed_empty, scopes0_empty_tables.
Qed.

Lemma scopes1_walk (nm : string) :
  declares scopes1 1 nm = false →
  declares scopes1 0 nm = false →
  ∀ i, i ≤ 1 → ∃ b, ancestor scopes1 1 i = Some b ∧ declares scopes1 b nm = false.
Proof. intros H1 H0 [|[|i]] Hi; [by exists 1|by exists 0|lia]. Qed.

Lemma findScope_sound_witness :
  findScope 2 scopes1 1 "X" = Return (Some 0)
  ∧ ∃ k, k < 2 ∧ ancestor scopes1 1 k = Some 0
      ∧ declares scopes1 0 "X" = true
      ∧ ∀ i, i < k →
          ∃ b, ancestor scopes1 1 i = Some b ∧ declares scopes1 b "X" = false.
Proof.
  split; [reflexivity|].
  exact (findScope_sound scopes1 "X" 2 1 0 eq_refl).
Defined.

(** The procedure [x] of the nested scope hides the variable [x] from an
    unfiltered lookup, and is walked past when a variable is asked for. *)
Lemma resolve_nearest_witness :
  ancestor scopes3 1 1 = Some 0
  ∧ offers scopes3 0 "X" (Some VariableSymbolClass) = Some symbolX
  ∧ ∃ j d y, j ≤ 1 ∧ ancestor scopes3 1 j = Some d
      ∧ offers scopes3 d "X" (Some VariableSymbolClass) = Some y
      ∧ (∀ i, i < j →
           ∃ b, ancestor scopes3 1 i = Some b
             ∧ offers scopes3 b "X" (Some VariableSymbolClass) = None)
      ∧ ∀ fuel, j < fuel →
          resolve fuel scopes3 1 "X" (Some VariableSymbolClass)
          = Return (JSObject y).
Proof.
  split; [reflexivity|]. split; [reflexivity|].
  exact (resolve_nearest scopes3 "X" (Some VariableSymbolClass) 1 1 0 symbolX
           eq_refl eq_refl).
Defined.

Lemma resolve_sound_witness :
  resolve 2 scopes1 1 "x" None = Return (JSObject symbolX)
  ∧ (JSObject symbolX = JSNull
     ∨ ∃ y k d, JSObject symbolX = JSObject y ∧ k < 2
         ∧ ancestor scopes1 1 k = Some d ∧ offers scopes1 d "x" None = Some y).
Proof.
  split; [reflexivity|].
  exact (resolve_sound scopes1 "x" None 2 1 (JSObject symbolX) eq_refl).
Defined.

Lemma resolve_null_witness :
  rootAt scopes1 1 1 = true
  ∧ resolve 2 scopes1 1 "y" None = Return JSNull.
Proof.
  split; [reflexivity|].
  refine (resolve_null scopes1 "y" None 1 1 eq_refl _ 2 _); [|lia].
  intros [|[|i]] Hi; [by exists 1|by exists 0|lia].
Defined.

Lemma insert_then_resolve_witness :
  insert scopes0 0 symbolX = Return scopes1
  ∧ ancestor scopes0 1 1 = Some 0
  ∧ resolve 2 scopes1 1 "X" None = Return (JSObject symbolX).
Proof.
  split; [exact scopes1_built|]. split; [reflexivity|].
  refine (insert_then_resolve scopes0 scopes1 0 symbolX 1 1 "X"
            scopes1_built eq_refl _ eq_refl 2 _); [|lia].
  intros [|i] Hi; [by exists 1|lia].
Defined.


Lemma insert_throws_iff_same_name_witness :
  keyed scopes1 ∧ scopes1 !! 0 = Some globalX
  ∧ (insert scopes1 0 (ProcedureSymbol "X")
     = Throw (PSIError (ProcedureSymbol "X") "Symbol X is being redeclared")
     ↔ ∃ k y0, scope globalX !! k = Some y0
         ∧ toLowerCase (symbolName y0) = toLowerCase "X")
  ∧ ((∃ h', insert scopes1 0 (ProcedureSymbol "y") = Return h')
     ↔ ∀ k y0, scope globalX !! k = Some y0 →
         toLowerCase (symbolName y0) ≠ toLowerCase "y").
Proof.
  split; [exact scopes1_keyed|]. split; [reflexivity|]. split.
  - exact (proj1 (insert_throws_iff_same_name scopes1 0 globalX
                    (ProcedureSymbol "X") scopes1_keyed eq_refl)).
  - exact (proj2 (insert_throws_iff_same_name scopes1 0 globalX
                    (ProcedureSymbol "y") scopes1_keyed eq_refl)).
Defined.

Lemma changeValue_last_write_wins_witness :
  changeValue 2 scopes1 1 "X" 7%Z = Return scopes2
  ∧ changeValue 2 scopes2 1 "X" 9%Z = changeValue 2 scopes1 1 "X" 9%Z.
Proof.
  split; [exact scopes2_built|].
  exact (changeValue_last_write_wins scopes1 scopes2 1 "X" 7%Z 9%Z 2
           scopes2_built).
Defined.

Lemma changeValue_frame_witness :
  changeValue 2 scopes1 1 "X" 7%Z = Return scopes2
  ∧ (∀ x nm' ty f, resolve f scopes2 x nm' ty = resolve f scopes1 x nm' ty)
  ∧ (∀ x nm', toLowerCase nm' ≠ toLowerCase "X" →
       resolveValueThisScopeOnly scopes2 x nm'
       = resolveValueThisScopeOnly scopes1 x nm').
Proof.
  split; [exact scopes2_built|].
  exact (changeValue_frame scopes1 scopes2 1 "X" 7%Z 2 scopes2_built).
Defined.


Lemma children_add_then_get_witness :
  ∃ h', children_add scopes0 0 1 = Return h'
    ∧ (∀ nm, toLowerCase nm = toLowerCase "proc" →
         children_get h' 0 nm = Return (JSObject 1))
    ∧ (∀ nm, toLowerCase nm ≠ toLowerCase "proc" →
         children_get h' 0 nm = children_get scopes0 0 nm)
    ∧ (∀ x, x ≠ 0 → h' !! x = scopes0 !! x).
Proof.
  exact (children_add_then_get scopes0 0 1 (newScope "global" None)
           (newScope "proc" (Some 0)) eq_refl eq_refl).
Defined.

End ScopeMoreExamples.

(** *** The further properties on sample streams *)

Section ParserMoreExamples.
Import Lexer Parser.

Abbreviation sample' kinds :=
  (newParser (stream sampleVal sampleFrom sampleTo kinds)).

(** "1 + 2" *)
Lemma expression_consumes_tokens_witness :
  ∃ a st',
    expression 8 (sample' [IntegerConstToken; PlusToken; IntegerConstToken])
    = Return (a, st')
    ∧ ∃ n, 1 ≤ n
        ∧ st' = advanceBy n (sample' [IntegerConstToken; PlusToken;
                                      IntegerConstToken])
        ∧ pending (lexer st')
          = drop n (pending (lexer (sample' [IntegerConstToken; PlusToken;
                                             IntegerConstToken])))
        ∧ is_Some (previousToken st').
Proof.
  eassert (Hrun : expression 8 (sample' [IntegerConstToken; PlusToken;
                                          IntegerConstToken])
                  = Return (_, _)) by (cbv; reflexivity).
  do 2 eexists. split; [exact Hrun|].
  exact (expression_consumes_tokens 8 _ _ _ (or_introl Hrun)).
Defined.

(** "x := 1" *)
Lemma statements_only_advance_witness :
  ∃ a st',
    statement 8 (sample' [IdToken; AssignToken; IntegerConstToken])
    = Return (a, st')
    ∧ ∃ n, st' = advanceBy n (sample' [IdToken; AssignToken; IntegerConstToken])
        ∧ pending (lexer st')
          = drop n (pending (lexer (sample' [IdToken; AssignToken;
                                             IntegerConstToken]))).
Proof.
  eassert (Hrun : statement 8 (sample' [IdToken; AssignToken; IntegerConstToken])
                  = Return (_, _)) by (cbv; reflexivity).
  do 2 eexists. split; [exact Hrun|].
  exact (proj1 (statements_only_advance 8 _ _) _ (or_introl Hrun)).
Defined.

(** "program p ; begin end ." *)
Lemma run_result_witness :
  ∃ node st',
    run sampleShow 8 (sample' [ProgramToken; IdToken; SemiToken; BeginToken;
                               EndToken; DotToken])
    = Return (node, st')
    ∧ (∃ name blockNode,
         node = ProgramAST (spanAt sampleFrom sampleTo 0) name blockNode)
    ∧ ∃ last, previousToken st' = Some last ∧ kind last = EofToken.
Proof.
  eassert (Hrun : run sampleShow 8
                    (sample' [ProgramToken; IdToken; SemiToken; BeginToken;
                              EndToken; DotToken])
                  = Return (_, _)) by (cbv; reflexivity).
  do 2 eexists. split; [exact Hrun|].
  destruct (run_result sampleShow 8 _ _ _ Hrun) as (_ & Hnode & _ & Hlast).
  split; [exact Hnode|exact Hlast].
Defined.

(** A semicolon where an operand is expected. *)
Lemma factor_rejects_witness :
  factor 1 (sample' [SemiToken])
  = Throw (PSIError (spanAt sampleFrom sampleTo 0)
             "Expected type SemiToken to be IdToken")
  ∧ expression 4 (sample' [SemiToken])
    = Throw (PSIError (spanAt sampleFrom sampleTo 0)
               "Expected type SemiToken to be IdToken").
Proof.
  exact (factor_rejects 0 (sample' [SemiToken])
           (kind_not_among SemiToken (IdToken :: factorStarts) eq_refl)).
Defined.

(** "x 1" *)
Lemma statement_invalid_witness :
  statement 1 (sample' [IdToken; IntegerConstToken])
  = Throw (PSIError
             {| spanStart := {| linePosition := 1; characterPosition := 0 |};
                spanEnd := {| linePosition := 1; characterPosition := 0 |} |}
             "Invalid statement").
Proof.
  exact (statement_invalid 0 (sample' [IdToken; IntegerConstToken]) eq_refl
           (kind_not_among IntegerConstToken
              [OpeningParenthesisToken; AssignToken] eq_refl)).
Defined.

Lemma type_outcome_witness :
  type sampleShow (sample' [RealToken; SemiToken])
  = Return (RealAST (spanAt sampleFrom sampleTo 0),
            next (sample' [RealToken; SemiToken]))
  ∧ type sampleShow (sample' [IdToken])
    = Throw (PSIError (spanAt sampleFrom sampleTo 0) "Unknown data type ?").
Proof.
  split.
  - refine (proj1 (type_outcome sampleShow (sample' [RealToken; SemiToken]))
              RealToken RealAST _ eq_refl).
    right. left.
  - exact (proj2 (type_outcome sampleShow (sample' [IdToken]))
             (kind_not_among IdToken
                [IntegerToken; RealToken; BooleanToken; CharToken] eq_refl)).
Defined.

(** "while x begin", "if x begin", "repeat x := 1 end", "for x := 1 do" *)
Lemma missing_keyword_after_previous_token_witness :
  (∃ p : Lexer.Token Z, while 9 (sample' [WhileToken; IdToken; BeginToken])
        = Throw (PSIError (afterPrevious p) "Expected do after while condition"))
  ∧ (∃ p : Lexer.Token Z, ifStatement 10 (sample' [IfToken; IdToken; BeginToken])
          = Throw (PSIError (afterPrevious p) "Expected then after if condition"))
  ∧ (∃ p : Lexer.Token Z, repeat 9 (sample' [RepeatToken; IdToken; AssignToken;
                             IntegerConstToken; EndToken])
          = Throw (PSIError (afterPrevious p)
                     "Expected until at the end of a repeat loop"))
  ∧ (∃ p : Lexer.Token Z, for_ 9 (sample' [ForToken; IdToken; AssignToken; IntegerConstToken;
                           DoToken])
          = Throw (PSIError (afterPrevious p) "Expected to/down to after for")).
Proof.
  split; [|split; [|split]].
  - eassert (Hrun : expression 8 (next (sample' [WhileToken; IdToken; BeginToken]))
                    = Return (_, _)) by (cbv; reflexivity).
    destruct (proj1 (missing_keyword_after_previous_token 8
                   (sample' [WhileToken; IdToken; BeginToken]) _) _
                eq_refl Hrun ltac:(discriminate)) as (p & _ & Hthrow).
    exists p. exact Hthrow.
  - eassert (Hrun : expression 8 (next (sample' [IfToken; IdToken; BeginToken]))
                    = Return (_, _)) by (cbv; reflexivity).
    destruct (proj1 (proj2 (missing_keyword_after_previous_token 8
                   (sample' [IfToken; IdToken; BeginToken]) _)) _
                eq_refl Hrun ltac:(discriminate)) as (p & _ & Hthrow).
    exists p. exact Hthrow.
  - eassert (Hrun : statementList 8
                      (next (sample' [RepeatToken; IdToken; AssignToken;
                                      IntegerConstToken; EndToken]))
                    = Return (_, _)) by (cbv; reflexivity).
    destruct (proj1 (proj2 (proj2 (missing_keyword_after_previous_token 8
                   (sample' [RepeatToken; IdToken; AssignToken;
                      IntegerConstToken; EndToken]) _)))
                _ eq_refl Hrun ltac:(discriminate)) as (p & _ & Hthrow).
    exists p. exact Hthrow.
  - eassert (Hrun : assignmentExpression 8
                      (next (sample' [ForToken; IdToken; AssignToken;
                                      IntegerConstToken; DoToken]))
                    = Return (_, _)) by (cbv; reflexivity).
    destruct (proj2 (proj2 (proj2 (missing_keyword_after_previous_token 8
                   (sample' [ForToken; IdToken; AssignToken;
                      IntegerConstToken; DoToken]) _)))
                _ eq_refl Hrun
                (kind_not_among DoToken [ToToken; DownToToken] eq_refl))
      as (p & _ & Hthrow).
    exists p. exact Hthrow.
Defined.

(** "x := 1 end" and "begin end" *)
Lemma statementList_starts_with_statement_witness :
  (∃ first rest st1,
     statement 8 (sample' [IdToken; AssignToken; IntegerConstToken; EndToken])
     = Return (first, st1)
     ∧ ∃ st', statementList 9 (sample' [IdToken; AssignToken; IntegerConstToken;
                                        EndToken])
              = Return (first :: rest, st'))
  ∧ ∃ first rest st',
      compoundStatement 10 (sample' [BeginToken; EndToken])
      = Return (CompoundAST (spanAt sampleFrom sampleTo 0) (first :: rest), st').
Proof.
  split.
  - eassert (Hrun : statementList 9 (sample' [IdToken; AssignToken;
                                              IntegerConstToken; EndToken])
                    = Return (_, _)) by (cbv; reflexivity).
    destruct (proj1 (statementList_starts_with_statement 8 _ _) _ Hrun)
      as (first & rest & st1 & Hfirst & Heq).
    exists first, rest, st1. split; [exact Hfirst|].
    eexists. rewrite <- Heq. exact Hrun.
  - eassert (Hrun : compoundStatement 10 (sample' [BeginToken; EndToken])
                    = Return (_, _)) by (cbv; reflexivity).
    destruct (proj2 (statementList_starts_with_statement 8 _ _) _ Hrun)
      as (first & rest & Heq & _).
    exists first, rest. eexists. rewrite Hrun, Heq. reflexivity.
Defined.


End ParserMoreExamples.
